(** * Email invoice bot: a shallow embedding of the message pipeline

    The development follows the three source files of the repository:
    - [ai_fraud_ml.py]: the runtime feature codec ([_amt_token], [_combine])
      and the scoring function ([predict_email_risk]);
    - [train_model.py]: the offline combiner ([amt_token], [combine]);
    - [main.py]: header and body decoding, the invoice gate, the ledger and
      the processing loop ([process_all]).

    Conventions of the model.
    - A Python [str] is a list of characters, each a code point below 256
      ([text]); case mapping and the white-space class are the ones Python
      uses on that range.
    - A Python [float] is [pyfloat]: not-a-number, an infinity, or a finite
      binary64 number given by its exact rational value.  A decimal literal,
      an integer and a product are rounded to the nearest such number, a
      tie to the even mantissa, and to an infinity beyond the range
      ([round_double]); the sign of a zero is not kept.
    - Library calls whose implementation is not part of the repository
      (the IMAP client, the MIME parser, [parseaddr], the header decoder,
      the clock, the workbook library, the persisted model pair) are fields
      of an environment record; a call that raises is a [None], or an
      outcome of its own where the caller tells it from a refusal. *)

From Stdlib Require Import Ascii String List ZArith QArith Qround Qabs Qpower
  Lia Lqa
  Bool Sorting.Sorted.
Import ListNotations.

Set Warnings "-register-all".
Close Scope Q_scope.
Open Scope list_scope.

(* ================================================================= *)
(** ** Text *)

Module Text.

Definition text := list ascii.

(** String literals of the source. *)
Definition T (s : string) : text := list_ascii_of_string s.

Definition code (c : ascii) : nat := nat_of_ascii c.

Definition between (lo hi n : nat) : bool := Nat.leb lo n && Nat.leb n hi.

(** [str.isspace] and the class [\s] of [re] on code points below 256. *)
Definition is_space (c : ascii) : bool :=
  let n := code c in
  between 9 13 n || between 28 32 n || Nat.eqb n 133 || Nat.eqb n 160.

(** The class [[0-9]]. *)
Definition is_digit (c : ascii) : bool := between 48 57 (code c).

(** [str.lower] on one code point below 256. *)
Definition lower_char (c : ascii) : ascii :=
  let n := code c in
  if between 65 90 n || (between 192 222 n && negb (Nat.eqb n 215))
  then ascii_of_nat (n + 32) else c.

Definition lower (s : text) : text := map lower_char s.

Definition eqb_char (a b : ascii) : bool := Ascii.eqb a b.

Fixpoint eqb_text (a b : text) : bool :=
  match a, b with
  | [], [] => true
  | x :: a', y :: b' => eqb_char x y && eqb_text a' b'
  | _, _ => false
  end.

(** [s.startswith(p)] *)
Fixpoint startswith (p s : text) : bool :=
  match p, s with
  | [], _ => true
  | _ :: _, [] => false
  | x :: p', y :: s' => eqb_char x y && startswith p' s'
  end.

(** [s.endswith(p)] *)
Definition endswith (p s : text) : bool := startswith (rev p) (rev s).

(** [needle in hay] *)
Fixpoint contains (needle hay : text) : bool :=
  startswith needle hay ||
  match hay with
  | [] => false
  | _ :: r => contains needle r
  end.

(** [s.lstrip()], [s.rstrip()], [s.strip()] *)
Fixpoint lstrip (s : text) : text :=
  match s with
  | [] => []
  | c :: r => if is_space c then lstrip r else s
  end.

Definition rstrip (s : text) : text := rev (lstrip (rev s)).

Definition strip (s : text) : text := rstrip (lstrip s).

(** [s.lstrip(".")] *)
Fixpoint lstrip_char (d : ascii) (s : text) : text :=
  match s with
  | [] => []
  | c :: r => if eqb_char c d then lstrip_char d r else s
  end.

(** [sep.join(parts)] *)
Fixpoint join (sep : text) (parts : list text) : text :=
  match parts with
  | [] => []
  | [p] => p
  | p :: rest => p ++ sep ++ join sep rest
  end.

(** [s.split(sep)] for a one-character separator; the result is never
    empty. *)
Fixpoint split_on (sep : ascii) (s : text) : list text :=
  match s with
  | [] => [[]]
  | c :: r =>
      if eqb_char c sep then [] :: split_on sep r
      else match split_on sep r with
           | [] => [[c]]
           | p :: ps => (c :: p) :: ps
           end
  end.

(** [re.sub(r"\s+", " ", s)]: every maximal run of white space becomes one
    space.  The flag records that the previous character was white space. *)
Fixpoint collapse_from (in_run : bool) (s : text) : text :=
  match s with
  | [] => []
  | c :: r =>
      if is_space c
      then (if in_run then collapse_from true r
            else " "%char :: collapse_from true r)
      else c :: collapse_from false r
  end.

Definition collapse_ws (s : text) : text := collapse_from false s.

(** Comparison of [str] values: lexicographic on code points. *)
Fixpoint compare_text (a b : text) : comparison :=
  match a, b with
  | [], [] => Eq
  | [], _ :: _ => Lt
  | _ :: _, [] => Gt
  | x :: a', y :: b' =>
      match Nat.compare (code x) (code y) with
      | Eq => compare_text a' b'
      | o => o
      end
  end.

(** [sorted(set(l))]: ascending, without duplicates. *)
Fixpoint insert_uniq (x : text) (l : list text) : list text :=
  match l with
  | [] => [x]
  | y :: r =>
      match compare_text x y with
      | Lt => x :: l
      | Eq => l
      | Gt => y :: insert_uniq x r
      end
  end.

Definition sorted_set (l : list text) : list text :=
  fold_right insert_uniq [] l.

(** [s.rfind(c)] as the number of characters before the last occurrence. *)
Fixpoint rfind (c : ascii) (s : text) : option nat :=
  match s with
  | [] => None
  | x :: r =>
      match rfind c r with
      | Some i => Some (S i)
      | None => if eqb_char x c then Some 0 else None
      end
  end.

End Text.
Import Text.

(* ================================================================= *)
(** ** Python values reaching [float(...)] *)

Module Py.

Inductive pyfloat : Type :=
| FNan
| FInf (negative : bool)
| FFin (q : Q).

Definition Qlt_bool (a b : Q) : bool := negb (Qle_bool b a).

(** [x < k] for a float [x] and an integer literal [k]; every comparison
    with not-a-number is false. *)
Definition flt (x : pyfloat) (k : Z) : bool :=
  match x with
  | FNan => false
  | FInf negative => negative
  | FFin q => Qlt_bool q (inject_Z k)
  end.

(** Rounding of a rational to the nearest integer, a tie to the even
    one: [round(x)] of a finite float, and the rounding of a mantissa. *)
Definition round_half_even (q : Q) : Z :=
  let f := Qfloor q in
  let r := (q - inject_Z f)%Q in
  if Qlt_bool r (1 # 2)%Q then f
  else if Qlt_bool (1 # 2)%Q r then (f + 1)%Z
  else if Z.even f then f else (f + 1)%Z.

Definition pow2 (e : Z) : Q := (2 ^ e)%Q.

(** For a positive rational, the exponent [k] with [2^k <= q < 2^(k+1)]. *)
Definition ilog2 (q : Q) : Z :=
  let k := (Z.log2 (Qnum q) - Z.log2 (Zpos (Qden q)))%Z in
  if Qle_bool (pow2 k) q then k else (k - 1)%Z.

(** The exponent of the unit in the last place of the double nearest to a
    positive rational: 52 below the number's own, and never below -1074. *)
Definition ulp_exp (q : Q) : Z := Z.max (-1074) (ilog2 q - 52).

(** The binary64 number nearest to a positive rational, were the exponent
    range unbounded above: a mantissa of 53 bits, or of fewer below
    [2^-1022], where the unit in the last place stays [2^-1074]. *)
Definition round_positive (q : Q) : Q :=
  let e := ulp_exp q in
  (inject_Z (round_half_even (q * pow2 (- e))) * pow2 e)%Q.

Definition round_value (q : Q) : Q :=
  if Qlt_bool q 0 then (- round_positive (- q))%Q
  else if Qlt_bool 0 q then round_positive q
  else 0%Q.

(** The float nearest to a rational: what the conversion of a literal or
    an integer and an arithmetic operation deliver. *)
Definition round_double (q : Q) : pyfloat :=
  let v := round_value q in
  if Qle_bool (pow2 1024) (Qabs v) then FInf (Qlt_bool q 0)
  else FFin (Qred v).

(** [x * k] for a float [x] and an integer literal [k]. *)
Definition times (x : pyfloat) (k : Z) : pyfloat :=
  match x with
  | FNan => FNan
  | FInf negative =>
      if (k =? 0)%Z then FNan else FInf (xorb negative (k <? 0)%Z)
  | FFin q => round_double (q * inject_Z k)
  end.

(** [round(x)] for a float: [None] is the [ValueError] of not-a-number and
    the [OverflowError] of an infinity. *)
Definition py_round (x : pyfloat) : option Z :=
  match x with
  | FFin q => Some (round_half_even q)
  | _ => None
  end.

(** The values the amount argument can take: [None], a float (also pandas'
    marker of a missing cell, [nan]), an integer, or a string. *)
Inductive pyval : Type :=
| PyNone
| PyFloat (f : pyfloat)
| PyInt (z : Z)
| PyStr (s : text).

Definition digit_val (c : ascii) : Z := Z.of_nat (code c) - 48.

(** A group of decimal digits in which single underscores may separate
    digits, as [float] accepts: the value read so far, the number of digits
    read, and the rest of the input.  [None] when the input does not start
    with a digit or an underscore is misplaced. *)
Fixpoint digit_group (acc : Z) (n : nat) (s : text) : option (Z * nat * text) :=
  match s with
  | c :: r =>
      if is_digit c then
        let acc' := (10 * acc + digit_val c)%Z in
        match r with
        | u :: ((d :: _) as r') =>
            if eqb_char u "_"%char then
              (if is_digit d then digit_group acc' (S n) r' else None)
            else if is_digit u then digit_group acc' (S n) r
            else Some (acc', S n, r)
        | [u] =>
            if is_digit u then digit_group acc' (S n) r
            else if eqb_char u "_"%char then None
            else Some (acc', S n, r)
        | [] => Some (acc', S n, r)
        end
      else None
  | [] => None
  end.

Definition pow10 (e : Z) : Q :=
  if (0 <=? e)%Z then inject_Z (10 ^ e) else (/ inject_Z (10 ^ (- e)))%Q.

(** The exponent part [[eE][+-]?digits], when present. *)
Definition exponent (s : text) : option (Z * text) :=
  match s with
  | e :: r =>
      if eqb_char e "e"%char || eqb_char e "E"%char then
        let '(neg, r1) :=
          match r with
          | sg :: r' =>
              if eqb_char sg "-"%char then (true, r')
              else if eqb_char sg "+"%char then (false, r')
              else (false, r)
          | [] => (false, r)
          end in
        match digit_group 0 0 r1 with
        | Some (v, _, rest) => Some ((if neg then - v else v)%Z, rest)
        | None => None
        end
      else Some (0%Z, s)
  | [] => Some (0%Z, s)
  end.

(** The unsigned decimal literal: digits, an optional point and fraction,
    an optional exponent; at least one digit before or after the point. *)
Definition decimal_literal (s : text) : option Q :=
  let '(ip, s1) :=
    match digit_group 0 0 s with
    | Some (v, _, r) => (Some v, r)
    | None => (None, s)
    end in
  let frac :=
    match s1 with
    | p :: r =>
        if eqb_char p "."%char then
          match digit_group 0 0 r with
          | Some (v, n, r') => Some (Some (v, n), r')
          | None =>
              match r with
              | c :: _ => if is_digit c || eqb_char c "_"%char then None
                          else Some (None, r)
              | [] => Some (None, r)
              end
          end
        else Some (None, s1)
    | [] => Some (None, s1)
    end in
  match frac with
  | None => None
  | Some (fp, s2) =>
      match ip, fp with
      | None, None => None
      | _, _ =>
          match exponent s2 with
          | Some (e, []) =>
              let i := match ip with Some v => v | None => 0%Z end in
              let '(f, n) := match fp with Some vn => vn | None => (0%Z, 0%nat) end in
              Some (Qred ((inject_Z i + inject_Z f * pow10 (- Z.of_nat n))
                          * pow10 e)%Q)
          | _ => None
          end
      end
  end.

(** The white space that [float] drops around a string: the ASCII class
    [\t\n\v\f\r] and the space, and the two white-space characters above
    code point 127. *)
Definition is_float_space (c : ascii) : bool :=
  let n := code c in
  between 9 13 n || Nat.eqb n 32 || Nat.eqb n 133 || Nat.eqb n 160.

Fixpoint float_lstrip (s : text) : text :=
  match s with
  | [] => []
  | c :: r => if is_float_space c then float_lstrip r else s
  end.

Definition float_strip (s : text) : text :=
  rev (float_lstrip (rev (float_lstrip s))).

(** [float(s)] for a string: surrounding white space is dropped, a sign is
    optional, then [inf], [infinity] or [nan] in any case, or a decimal
    literal, whose value is rounded to the nearest float.  [None] is
    [ValueError]. *)
Definition float_of_text (s : text) : option pyfloat :=
  let s0 := float_strip s in
  let '(neg, body) :=
    match s0 with
    | c :: r =>
        if eqb_char c "-"%char then (true, r)
        else if eqb_char c "+"%char then (false, r)
        else (false, s0)
    | [] => (false, s0)
    end in
  let w := lower body in
  if eqb_text w (T "inf") || eqb_text w (T "infinity") then Some (FInf neg)
  else if eqb_text w (T "nan") then Some FNan
  else match decimal_literal body with
       | Some q => Some (round_double (if neg then - q else q)%Q)
       | None => None
       end.

(** [float(v)]; [None] is an exception ([TypeError] for [None],
    [ValueError] for a string that is no number, [OverflowError] for an
    integer that rounds beyond the float range). *)
Definition float (v : pyval) : option pyfloat :=
  match v with
  | PyNone => None
  | PyFloat f => Some f
  | PyInt z =>
      match round_double (inject_Z z) with
      | FFin q => Some (FFin q)
      | _ => None
      end
  | PyStr s => float_of_text s
  end.

(** [l[start:]] with Python's treatment of negative and oversized
    indices. *)
Definition slice_from {A : Type} (start : Z) (l : list A) : list A :=
  let n := Z.of_nat (length l) in
  let s := if (start <? 0)%Z then Z.max 0 (start + n) else Z.min start n in
  skipn (Z.to_nat s) l.

End Py.
Import Py.

(** [x or ""] and [x or []] for a value that may be [None]. *)
Definition or_empty {A : Type} (x : option (list A)) : list A :=
  match x with
  | Some l => l
  | None => []
  end.

Definition nonempty {A : Type} (l : list A) : bool :=
  match l with
  | [] => false
  | _ :: _ => true
  end.

(** Exceptions are threaded as [option]: [None] is a raised exception that
    reaches the enclosing [try], or the caller. *)
Notation "'do' x <- e ; k" :=
  (match e with
   | Some x => k
   | None => None
   end)
  (at level 10, x pattern, e at level 100, k at level 200, only parsing).

(** [[f(x) for x in l]] where [f] may raise. *)
Fixpoint traverse {A B : Type} (f : A -> option B) (l : list A) : option (list B) :=
  match l with
  | [] => Some []
  | x :: r =>
      do y <- f x;
      do ys <- traverse f r;
      Some (y :: ys)
  end.

(* ================================================================= *)
(** ** ai_fraud_ml.py *)

Definition _amt_token (v : pyval) : text :=
  match float v with
  | Some x =>
      if flt x 100 then T "AMOUNT_BIN:LOW"
      else if flt x 1000 then T "AMOUNT_BIN:MED"
      else T "AMOUNT_BIN:HIGH"
  | None => T "AMOUNT_BIN:UNK"
  end.

Definition _combine (subject body from_domain reply_domain attachment_types : option text)
    (amount : pyval) : text :=
  let txt :=
    join (T "
")
      [ or_empty subject; or_empty body;
        T "FROM:" ++ lower (or_empty from_domain);
        T "REPLY:" ++ lower (or_empty reply_domain);
        T "ATTACH:" ++ lower (or_empty attachment_types);
        _amt_token amount ] in
  strip (collapse_ws txt).

(** One row of the vectorizer's output: the stored entries, column index
    and value. *)
Definition SparseRow := list (nat * Q).

(** The persisted pair.  [transform] and [predict_proba] may raise;
    [get_feature_names_out] and [coef_] may be missing on the loaded
    object.  [predict_proba] is the positive-class entry [[0, 1]]. *)
Record Vectorizer := {
  transform : text -> option SparseRow;
  get_feature_names_out : option (list text)
}.

Record Classifier := {
  predict_proba : SparseRow -> option pyfloat;
  coef_ : option (list (list Q))
}.

Definition Model : Type := Classifier * Vectorizer.

Record RiskAssessment := {
  risk_score : Z;
  top_tokens : list text
}.

(** [X.nonzero()[1]]: the columns of the entries that are not zero. *)
Definition nonzero_cols (X : SparseRow) : list nat :=
  map fst (filter (fun e => negb (Qeq_bool (snd e) 0%Q)) X).

(** [toks.sort(key=lambda x: x[1], reverse=True)]: descending by weight,
    entries of equal weight in their original order. *)
Fixpoint insert_desc (x : text * Q) (l : list (text * Q)) : list (text * Q) :=
  match l with
  | [] => [x]
  | y :: r =>
      if Qle_bool (snd y) (snd x) then x :: l else y :: insert_desc x r
  end.

Definition sort_desc (l : list (text * Q)) : list (text * Q) :=
  fold_right insert_desc [] l.

Definition positive (tw : text * Q) : bool := Qlt_bool 0%Q (snd tw).

(** The body of the inner [try]. *)
Definition explain (clf : Classifier) (vec : Vectorizer) (X : SparseRow)
    : option (list text) :=
  do feats <- get_feature_names_out vec;
  do weights <- match coef_ clf with
                | Some (row0 :: _) => Some row0
                | _ => None
                end;
  let idx := nonzero_cols X in
  do toks <- traverse (fun i =>
               do t <- nth_error feats i;
               do w <- nth_error weights i;
               Some (t, w)) idx;
  let toks := sort_desc toks in
  Some (firstn 5 (map fst (filter positive (firstn 5 toks)))).

(** [artifacts] is the result of [_load()]: [None] when loading raises.
    The probability is a float; its product with 100 is a float product,
    and [round] of a product that is not finite raises, outside the inner
    [try]. *)
Definition predict_email_risk (artifacts : option Model)
    (subject body from_domain reply_domain attachment_types : option text)
    (amount : pyval) : option RiskAssessment :=
  do (clf, vec) <- artifacts;
  do X <- transform vec
            (_combine subject body from_domain reply_domain attachment_types amount);
  do proba <- predict_proba clf X;
  do risk_score <- py_round (times proba 100);
  let top_tokens :=
    match explain clf vec X with
    | Some toks => toks
    | None => []
    end in
  Some {| risk_score := risk_score; top_tokens := top_tokens |}.

(* ================================================================= *)
(** ** train_model.py *)

Definition amt_token (val : pyval) : text :=
  match float val with
  | Some v =>
      if flt v 100 then T "AMOUNT_BIN:LOW"
      else if flt v 1000 then T "AMOUNT_BIN:MED"
      else T "AMOUNT_BIN:HIGH"
  | None => T "AMOUNT_BIN:UNK"
  end.

(** A row of the labelled table; [None] is a key that [row.get] does not
    find. *)
Record Row := {
  r_subject : option text;
  r_body : option text;
  r_from_domain : option text;
  r_reply_domain : option text;
  r_attachment_types : option text;
  r_amount : option pyval
}.

Definition combine (row : Row) : text :=
  let subject := or_empty (r_subject row) in
  let body := or_empty (r_body row) in
  let from_dom := or_empty (r_from_domain row) in
  let reply_dom := or_empty (r_reply_domain row) in
  let attach := or_empty (r_attachment_types row) in
  let amt := match r_amount row with
             | Some v => v
             | None => PyStr []
             end in
  let txt :=
    join (T "
")
      [ subject; body; T "FROM:" ++ from_dom; T "REPLY:" ++ reply_dom;
        T "ATTACH:" ++ attach; amt_token amt ] in
  strip (collapse_ws txt).

(** A cell of the table as [main] leaves it before [combine] runs: a text
    column that is missing is filled with the empty string, a missing
    [amount] with [nan]. *)
Definition fill_text (cell : option text) : option text :=
  match cell with
  | Some s => Some s
  | None => Some []
  end.

Definition fill_amount (cell : option pyval) : option pyval :=
  match cell with
  | Some v => Some v
  | None => Some (PyFloat FNan)
  end.

Definition prepare_row (row : Row) : Row :=
  {| r_subject := fill_text (r_subject row);
     r_body := fill_text (r_body row);
     r_from_domain := fill_text (r_from_domain row);
     r_reply_domain := fill_text (r_reply_domain row);
     r_attachment_types := fill_text (r_attachment_types row);
     r_amount := fill_amount (r_amount row) |}.

(* ================================================================= *)
(** ** main.py *)

(** A parsed message or one of its parts, as [email.message_from_bytes]
    delivers it: the headers the program reads, and the results of the
    accessors it calls.  [content] is [get_content()], [None] when that
    raises; [payload] is [get_payload(decode=True)]; [subparts] is the
    payload list of a multipart, so [is_multipart()] is [subparts <> None]. *)
Inductive Message : Type := mkMessage {
  h_subject : option text;
  h_from : option text;
  h_date : option text;
  h_reply_to : option text;
  h_message_id : option text;
  h_content_disposition : option text;
  content_type : text;
  filename : option text;
  content : option text;
  payload : option (list ascii);
  subparts : option (list Message)
}.

Definition is_multipart (m : Message) : bool :=
  match subparts m with
  | Some _ => true
  | None => false
  end.

(** [msg.walk()]: the message itself, then every subpart's walk, depth
    first. *)
Fixpoint walk (m : Message) : list Message :=
  m :: match subparts m with
       | Some ps => flat_map walk ps
       | None => []
       end.

(** What [imap.noop()] does: it returns, it raises [IMAP4.abort], or it
    raises something else. *)
Inductive NoopOutcome : Type :=
| NoopReturns
| NoopAborts
| NoopRaises.

(** [maybe_keepalive(imap, i, every)]: [Some true] when the probe was sent
    (an abort is swallowed), [Some false] when it was not due, [None] when
    an exception leaves the function (a probe that raises something else,
    or [every = 0], where [i % every] raises). *)
Definition maybe_keepalive (noop : NoopOutcome) (i every : Z) : option bool :=
  if (every =? 0)%Z then None
  else if (i mod every =? 0)%Z then
    match noop with
    | NoopReturns => Some true
    | NoopAborts => Some true
    | NoopRaises => None
    end
  else Some false.

(** What [imap.search] does: it returns a listing with status [OK], it
    returns another status, or the session fails (the connection, the
    login, the selection of the mailbox or the search raises). *)
Inductive Search : Type :=
| SearchOk (msg_ids : list text)
| SearchNotOk
| SearchRaises.

(** What the fetch of one message does: it returns the message with
    status [OK] and the message parses, it returns another status, or the
    fetch or the parse raises. *)
Inductive Fetch : Type :=
| FetchOk (msg : Message)
| FetchNotOk
| FetchRaises.

(** What the program takes from outside the repository during one run.
    [noop], [now] and [save_raises] are asked at a turn of the loop, given
    by its number: what the probe does when it is sent, what the clock
    shows when the row is written, and whether [wb.save] raises, each
    save of the turn alike. *)
Record Env := {
  parseaddr : text -> text * text;
  decode_header : text -> option text;
  bytes_decode : list ascii -> text;
  imap_search : Search;
  imap_fetch : text -> Fetch;
  noop : nat -> NoopOutcome;
  load : option Model;
  now : nat -> text;
  save_raises : nat -> bool
}.

Definition domain_from_header (env : Env) (header_value : option text) : text :=
  let '(_, email_addr) := parseaddr env (or_empty header_value) in
  if nonempty email_addr && contains (T "@") email_addr
  then lower (nth 1 (split_on "@" email_addr) [])
  else [].

(** [os.path.splitext] of [posixpath]: the extension starts at the last
    dot of the last path component, unless that component has only dots
    before it. *)
Definition splitext (p : text) : text * text :=
  let index (o : option nat) : Z :=
    match o with
    | Some i => Z.of_nat i
    | None => (-1)%Z
    end in
  let sepIndex := index (rfind "/" p) in
  let dotIndex := index (rfind "." p) in
  if (sepIndex <? dotIndex)%Z then
    let filenameIndex := Z.to_nat (sepIndex + 1) in
    let before := firstn (Z.to_nat dotIndex - filenameIndex) (skipn filenameIndex p) in
    if existsb (fun c => negb (eqb_char c ".")) before
    then (firstn (Z.to_nat dotIndex) p, skipn (Z.to_nat dotIndex) p)
    else (p, [])
  else (p, []).

Definition attachment_types_from_list (names : option (list (option text))) : text :=
  let exts :=
    flat_map (fun n =>
      let '(_, ext) := splitext (strip (or_empty n)) in
      if nonempty ext then [lower (lstrip_char "." ext)] else [])
      (or_empty names) in
  if nonempty exts then join (T ",") (sorted_set exts) else [].

(** The match of [[0-9]+(?:\.[0-9]{2})?] at a position where a digit
    stands: the whole run of digits, then a point and two digits when they
    follow. *)
Fixpoint digit_run (s : text) : text * text :=
  match s with
  | c :: r =>
      if is_digit c then let '(d, rest) := digit_run r in (c :: d, rest)
      else ([], s)
  | [] => ([], [])
  end.

Definition amount_match (s : text) : text :=
  let '(d, rest) := digit_run s in
  match rest with
  | p :: a :: b :: _ =>
      if eqb_char p "." && is_digit a && is_digit b then d ++ [p; a; b] else d
  | _ => d
  end.

(** [re.search]: the leftmost match, which starts at the first digit. *)
Fixpoint search_amount (s : text) : option text :=
  match s with
  | [] => None
  | c :: r => if is_digit c then Some (amount_match s) else search_amount r
  end.

Definition extract_amount_guess (txt : text) : option pyfloat :=
  if negb (nonempty txt) then None
  else match search_amount txt with
       | Some m => float (PyStr m)
       | None => None
       end.

Definition decode_mime_header (env : Env) (raw_value : option text) : text :=
  match raw_value with
  | None => []
  | Some [] => []
  | Some raw =>
      match decode_header env raw with
      | Some s => s
      | None => raw
      end
  end.

(** The text one part contributes: [get_content()], and when that raises
    the decoded payload. *)
Definition part_text (env : Env) (part : Message) : text :=
  match content part with
  | Some s => s
  | None => bytes_decode env (or_empty (payload part))
  end.

Definition is_attachment (part : Message) : bool :=
  contains (T "attachment") (lower (or_empty (h_content_disposition part))).

Definition is_plain_body (part : Message) : bool :=
  eqb_text (content_type part) (T "text/plain") && negb (is_attachment part).

Definition extract_text_body (env : Env) (msg : Message) : text :=
  if is_multipart msg then
    let parts := map (part_text env) (filter is_plain_body (walk msg)) in
    strip (join (T "
") parts)
  else
    if eqb_text (content_type msg) (T "text/plain") then part_text env msg
    else [].

Record Attachment := {
  fname : text;
  size : nat;
  is_pdf : bool
}.

(** [list_attachments] with [save=False], the value of
    [SAVE_ATTACHMENTS]: nothing is written and the data slot is [None]. *)
Definition list_attachments (env : Env) (msg : Message) : list Attachment :=
  map (fun part =>
         let name :=
           match decode_mime_header env (filename part) with
           | [] => T "unnamed"
           | n => n
           end in
         {| fname := name;
            size := length (or_empty (payload part));
            is_pdf := eqb_text (content_type part) (T "application/pdf")
                      || endswith (T ".pdf") (lower name) |})
      (filter is_attachment (walk msg)).

Definition looks_like_invoice (subject body : text) (attachments : list Attachment)
    : bool * text :=
  let txt := lower (subject ++ T "
" ++ body) in
  let kw_hit := contains (T "invoice") txt in
  let is_invoice := kw_hit in
  let reason := if kw_hit then T "keyword" else T "no strong signal" in
  (is_invoice, reason).

(** A cell of the sheet. *)
Inductive Cell : Type :=
| CStr (s : text)
| CInt (z : Z)
| CFloat (f : pyfloat)
| CBool (b : bool).

Definition HEADER : list Cell :=
  map (fun s => CStr (T s))
    [ "SavedAt"; "From"; "Subject"; "Date"; "HasPDF"; "AttachmentNames";
      "Reason"; "MessageID"; "FromDomain"; "ReplyDomain"; "AttachmentTypes";
      "AmountGuess"; "ML Risk Score"; "ML Top Tokens" ]%string.

(** The file [invoices.xlsx]: [None] while it does not exist, otherwise the
    rows of the sheet [Invoices]. *)
Definition Workbook := option (list (list Cell)).

Definition ensure_workbook (wb : Workbook) : list (list Cell) :=
  match wb with
  | Some rows => rows
  | None => [HEADER]
  end.

(** The list handed to [ws.append]. *)
Definition invoice_cells (saved_at from_ subject date_str : text) (has_pdf : bool)
    (attach_names : list text)
    (reason message_id from_domain reply_domain attachment_types : text)
    (amount_guess ml_risk_score ml_top_tokens : Cell) : list Cell :=
  [ CStr saved_at; CStr from_; CStr subject; CStr date_str; CBool has_pdf;
    CStr (join (T ", ") attach_names); CStr reason; CStr message_id;
    CStr from_domain; CStr reply_domain; CStr attachment_types;
    amount_guess; ml_risk_score; ml_top_tokens ].

(** The characters [openpyxl] refuses in a text cell: the control
    characters other than tab, line feed and carriage return. *)
Definition illegal_char (c : ascii) : bool :=
  let n := code c in
  between 0 8 n || between 11 12 n || between 14 31 n.

Definition illegal_cell (c : Cell) : bool :=
  match c with
  | CStr s => existsb illegal_char s
  | _ => false
  end.

(** [append_invoice_row]: the file after the call, and whether the call
    returned.  [ensure_workbook] saves a new workbook with its header
    before the row is appended; [ws.append] raises on a cell that the
    library refuses, and then the file has no new row; a save that raises
    leaves the file as it was. *)
Definition append_invoice_row (save_fails : bool) (saved_at : text) (wb : Workbook)
    (from_ subject date_str : text) (has_pdf : bool) (attach_names : list text)
    (reason message_id from_domain reply_domain attachment_types : text)
    (amount_guess ml_risk_score ml_top_tokens : Cell) : Workbook * bool :=
  let row :=
    invoice_cells saved_at from_ subject date_str has_pdf attach_names
      reason message_id from_domain reply_domain attachment_types
      amount_guess ml_risk_score ml_top_tokens in
  if save_fails then (wb, false)
  else if existsb illegal_cell row then (Some (ensure_workbook wb), false)
  else (Some (ensure_workbook wb ++ [row]), true).

(** The state the loop changes: the sheet on disk and the counter; and
    whether the run was ended by an exception. *)
Record State := {
  ledger : Workbook;
  count : nat;
  raised : bool
}.

(** The row of an accepted message, before the cells of the score. *)
Record Candidate := {
  c_from : text;
  c_subject : text;
  c_body : text;
  c_date : text;
  c_has_pdf : bool;
  c_attach_names : list text;
  c_reason : text;
  c_message_id : text;
  c_from_domain : text;
  c_reply_domain : text;
  c_attachment_types : text;
  c_amount_value : option pyfloat
}.

(** Decoding and gating of one fetched message: [None] when the gate
    rejects it. *)
Definition candidate_of (env : Env) (msg : Message) : option Candidate :=
  let subject := decode_mime_header env (h_subject msg) in
  let from_ := decode_mime_header env (h_from msg) in
  let date_h := decode_mime_header env (h_date msg) in
  let body := extract_text_body env msg in
  let attachments := list_attachments env msg in
  let '(is_inv, reason) := looks_like_invoice subject body attachments in
  let has_pdf := existsb is_pdf attachments in
  let attach_names := map fname attachments in
  let message_id := decode_mime_header env (h_message_id msg) in
  if is_inv then
    let from_domain := domain_from_header env (Some from_) in
    let reply_domain :=
      domain_from_header env (Some (decode_mime_header env (h_reply_to msg))) in
    let attachment_types :=
      attachment_types_from_list (Some (map Some attach_names)) in
    let amount_value := extract_amount_guess (subject ++ T "
" ++ body) in
    Some {| c_from := from_; c_subject := subject; c_body := body;
            c_date := date_h; c_has_pdf := has_pdf;
            c_attach_names := attach_names; c_reason := reason;
            c_message_id := message_id; c_from_domain := from_domain;
            c_reply_domain := reply_domain;
            c_attachment_types := attachment_types;
            c_amount_value := amount_value |}
  else None.

Definition amount_arg (a : option pyfloat) : pyval :=
  match a with
  | Some f => PyFloat f
  | None => PyNone
  end.

(** The call of [predict_email_risk] inside its [try]. *)
Definition score (env : Env) (c : Candidate) : option RiskAssessment :=
  predict_email_risk (load env)
    (Some (c_subject c)) (Some (c_body c)) (Some (c_from_domain c))
    (Some (c_reply_domain c)) (Some (c_attachment_types c))
    (amount_arg (c_amount_value c)).

Definition ml_cells (r : option RiskAssessment) : Cell * Cell :=
  match r with
  | Some ml => (CInt (risk_score ml), CStr (join (T ", ") (top_tokens ml)))
  | None => (CStr [], CStr [])
  end.

Definition write_row (save_fails : bool) (saved_at : text) (wb : Workbook)
    (c : Candidate) (ml : Cell * Cell) : Workbook * bool :=
  append_invoice_row save_fails saved_at wb
    (c_from c) (c_subject c) (c_date c) (c_has_pdf c) (c_attach_names c)
    (c_reason c) (c_message_id c) (c_from_domain c) (c_reply_domain c)
    (c_attachment_types c)
    (match c_amount_value c with
     | Some f => CFloat f
     | None => CStr []
     end)
    (fst ml) (snd ml).

(** The end of a turn: the loop goes on, or an exception leaves it. *)
Inductive Turn : Type :=
| Continue (st : State)
| Stop (st : State).

(** One turn of the [for] loop; [i] is the counter of [enumerate].  The
    probe comes first; an exception that leaves it, the fetch or the write
    of the row ends the loop, since only the scoring call stands in a
    [try].  A fetch whose status is not [OK] and a message the gate
    rejects are skipped.  The console lines are left out. *)
Definition process_message (env : Env) (i : nat) (msg_id : text) (st : State)
    : Turn :=
  match maybe_keepalive (noop env i) (Z.of_nat i) 50 with
  | None => Stop st
  | Some _ =>
      match imap_fetch env msg_id with
      | FetchRaises => Stop st
      | FetchNotOk => Continue st
      | FetchOk msg =>
          match candidate_of env msg with
          | Some c =>
              let '(disk, written) :=
                write_row (save_raises env i) (now env i) (ledger st) c
                  (ml_cells (score env c)) in
              if written
              then Continue {| ledger := disk; count := S (count st);
                               raised := raised st |}
              else Stop {| ledger := disk; count := count st;
                           raised := raised st |}
          | None => Continue st
          end
      end
  end.

Fixpoint process_loop (env : Env) (i : nat) (ids : list text) (st : State) : State :=
  match ids with
  | [] => st
  | msg_id :: rest =>
      match process_message env i msg_id st with
      | Continue st' => process_loop env (S i) rest st'
      | Stop st' =>
          {| ledger := ledger st'; count := count st'; raised := true |}
      end
  end.

(** The batch: the listing cut to [msg_ids[-min(limit, 200):]]. *)
Definition batch (limit : Z) (msg_ids : list text) : list text :=
  slice_from (- Z.min limit 200) msg_ids.

(** A run starts on the sheet and the counter it is given. *)
Definition start (st : State) : State :=
  {| ledger := ledger st; count := count st; raised := false |}.

Definition process_all (env : Env) (limit : Z) (st : State) : State :=
  match imap_search env with
  | SearchRaises =>
      {| ledger := ledger st; count := count st; raised := true |}
  | SearchNotOk => start st
  | SearchOk msg_ids => process_loop env 1 (rev (batch limit msg_ids)) (start st)
  end.

(** The call [process_all()] with the default of its parameter. *)
Definition process_all_default (env : Env) (st : State) : State :=
  process_all env 200 st.

(* ================================================================= *)
(** ** Vocabulary of the statements *)

(** The cell of a row under a column of [HEADER]. *)
Fixpoint index_of (name : text) (cols : list Cell) : option nat :=
  match cols with
  | [] => None
  | CStr s :: r =>
      if eqb_text s name then Some 0%nat
      else option_map S (index_of name r)
  | _ :: r => option_map S (index_of name r)
  end.

Definition column (name : string) (row : list Cell) : option Cell :=
  match index_of (T name) HEADER with
  | Some i => nth_error row i
  | None => None
  end.

(** [l[-k:]] for [k > 0]: the last [k] elements. *)
Definition lastn {A : Type} (k : nat) (l : list A) : list A :=
  skipn (length l - k) l.

(** The cells written for an accepted message. *)
Definition row_of (saved_at : text) (c : Candidate) (ml : Cell * Cell) : list Cell :=
  invoice_cells saved_at
    (c_from c) (c_subject c) (c_date c) (c_has_pdf c) (c_attach_names c)
    (c_reason c) (c_message_id c) (c_from_domain c) (c_reply_domain c)
    (c_attachment_types c)
    (match c_amount_value c with
     | Some f => CFloat f
     | None => CStr []
     end)
    (fst ml) (snd ml).

(** The rows a run of the loop that is not ended by an exception adds,
    in the order of the iteration. *)
Fixpoint rows_of (env : Env) (i : nat) (ids : list text) : list (list Cell) :=
  match ids with
  | [] => []
  | msg_id :: rest =>
      match imap_fetch env msg_id with
      | FetchOk msg =>
          match candidate_of env msg with
          | Some c => [row_of (now env i) c (ml_cells (score env c))]
          | None => []
          end
      | _ => []
      end ++ rows_of env (S i) rest
  end.

(** The probe of turn [i] returns. *)
Definition probe_returns (env : Env) (i : nat) : bool :=
  match maybe_keepalive (noop env i) (Z.of_nat i) 50 with
  | Some _ => true
  | None => false
  end.

(** The write of a row at turn [i] returns: saving does not raise and the
    library accepts every cell. *)
Definition write_returns (env : Env) (i : nat) (row : list Cell) : bool :=
  negb (save_raises env i) && negb (existsb illegal_cell row).

(** No exception leaves turn [i]. *)
Definition turn_returns (env : Env) (i : nat) (msg_id : text) : bool :=
  probe_returns env i &&
  match imap_fetch env msg_id with
  | FetchRaises => false
  | FetchNotOk => true
  | FetchOk msg =>
      match candidate_of env msg with
      | Some c => write_returns env i (row_of (now env i) c (ml_cells (score env c)))
      | None => true
      end
  end.

(** No exception leaves the loop over [ids], begun at turn [i]. *)
Fixpoint run_returns (env : Env) (i : nat) (ids : list text) : bool :=
  match ids with
  | [] => true
  | msg_id :: rest => turn_returns env i msg_id && run_returns env (S i) rest
  end.

(** The same surroundings at another time: only the clock differs. *)
Definition with_clock (env : Env) (clock : nat -> text) : Env :=
  {| parseaddr := parseaddr env;
     decode_header := decode_header env;
     bytes_decode := bytes_decode env;
     imap_search := imap_search env;
     imap_fetch := imap_fetch env;
     noop := noop env;
     load := load env;
     now := clock;
     save_raises := save_raises env |}.

(** The combined text of an accepted message, as [score] hands it to the
    vectorizer. *)
Definition candidate_text (c : Candidate) : text :=
  _combine (Some (c_subject c)) (Some (c_body c)) (Some (c_from_domain c))
    (Some (c_reply_domain c)) (Some (c_attachment_types c))
    (amount_arg (c_amount_value c)).

(** The sheet after more rows are appended to it. *)
Definition extend (wb : Workbook) (rows : list (list Cell)) : Workbook :=
  match rows with
  | [] => wb
  | _ :: _ => Some (ensure_workbook wb ++ rows)
  end.

(** The plain-text body parts of a message at every depth, in document
    order: the part itself when it qualifies, then those of its subparts. *)
Fixpoint plain_parts (m : Message) : list Message :=
  (if is_plain_body m then [m] else []) ++
  match subparts m with
  | Some ps => flat_map plain_parts ps
  | None => []
  end.

(** The reading that looks at the first level only. *)
Definition first_level_body (env : Env) (msg : Message) : text :=
  strip (join (T "
") (map (part_text env) (filter is_plain_body (or_empty (subparts msg))))).

(** The three segments of a combined text: what the subject contributes,
    what the body contributes, and the tagged tail. *)
Definition nl : text := T "
".

Definition subject_segment (subject : option text) : text :=
  lstrip (collapse_ws (or_empty subject ++ nl)).

Definition body_segment (body : option text) : text :=
  collapse_ws (lstrip (or_empty body ++ nl)).

Definition tag_segment (from_domain reply_domain attachment_types : option text)
    (amount : pyval) : text :=
  collapse_ws
    (T "FROM:" ++ lower (or_empty from_domain) ++ nl ++
     T "REPLY:" ++ lower (or_empty reply_domain) ++ nl ++
     T "ATTACH:" ++ lower (or_empty attachment_types) ++ nl ++
     _amt_token amount).

(** A text that is empty or begins with a character that is no white
    space. *)
Definition starts_solid (s : text) : Prop :=
  match s with
  | [] => True
  | c :: _ => is_space c = false
  end.

(** [a] occurs in [b] as a contiguous piece. *)
Definition occurs (a b : text) : Prop := exists pre post, b = pre ++ a ++ post.

(** Descending order of weights. *)
Definition weight_ge (a b : text * Q) : Prop := (snd b <= snd a)%Q.


(** The strings the amount pattern matches: digits, then possibly a point
    and two digits. *)
Definition amount_string (m : text) : Prop :=
  exists c d,
    forallb is_digit (c :: d) = true /\
    (m = c :: d \/
     exists a b, is_digit a = true /\ is_digit b = true /\
                 m = (c :: d) ++ "."%char :: [a; b]).

(** What may follow a group of digits. *)
Definition ends_group (rest : text) : Prop :=
  match rest with
  | [] => True
  | u :: _ => is_digit u = false /\ eqb_char u "_" = false
  end.

(** The number a run of digits denotes, continuing from [acc]. *)
Definition digits_value (d : text) (acc : Z) : Z :=
  fold_left (fun a c => (10 * a + digit_val c)%Z) d acc.

(** ** Concrete messages and surroundings *)

(** A stand-in for [email.utils.parseaddr] on the two shapes the program
    documents, [Name <user@host>] and a bare address. *)
Fixpoint until_char (c : ascii) (s : text) : option (text * text) :=
  match s with
  | [] => None
  | x :: r =>
      if eqb_char x c then Some ([], r)
      else match until_char c r with
           | Some (a, b) => Some (x :: a, b)
           | None => None
           end
  end.

Definition parseaddr_basic (s : text) : text * text :=
  match until_char "<" s with
  | Some (name, r) =>
      match until_char ">" r with
      | Some (addr, _) => (strip name, strip addr)
      | None => ([], strip s)
      end
  | None => ([], strip s)
  end.

Definition leaf (ctype : text) (disposition name : option text)
    (txt : option text) (data : option (list ascii)) : Message :=
  mkMessage None None None None None disposition ctype name txt data None.

Definition container (ctype : text) (subject from_ : option text)
    (parts : list Message) : Message :=
  mkMessage subject from_ None None None None ctype None None None (Some parts).

Definition plain (body : text) : Message :=
  leaf (T "text/plain") None None (Some body) (Some body).

Definition attached (ctype name : text) (data : list ascii) : Message :=
  leaf ctype (Some (T "attachment; filename=" ++ name)) (Some name) None (Some data).

(** Scenario A: the invoice of Bill, one attachment [invoice.pdf]. *)
Definition scenario_A (attachment_ctype : text) (data : list ascii) : Message :=
  container (T "multipart/mixed")
    (Some (T "Invoice #1234 due")) (Some (T "Bill <bill@acme.com>"))
    [ plain (T "Please pay $250.00 to acme.com");
      attached attachment_ctype (T "invoice.pdf") data ].

(** What the loop makes of scenario A. *)
Definition scenario_A_candidate (env : Env) : Candidate :=
  {| c_from := T "Bill <bill@acme.com>";
     c_subject := T "Invoice #1234 due";
     c_body := T "Please pay $250.00 to acme.com";
     c_date := [];
     c_has_pdf := true;
     c_attach_names := [T "invoice.pdf"];
     c_reason := T "keyword";
     c_message_id := [];
     c_from_domain := T "acme.com";
     c_reply_domain := domain_from_header env (Some []);
     c_attachment_types := T "pdf";
     c_amount_value := Some (FFin 1234) |}.

(** A message whose only text sits one level below the first. *)
Definition nested_message : Message :=
  container (T "multipart/mixed") (Some (T "Invoice")) None
    [ container (T "multipart/alternative") None None
        [ plain (T "hello"); leaf (T "text/html") None None None None ] ].

(** A single-part plain-text message. *)
Definition simple (subject body : text) : Message :=
  mkMessage (Some subject) None None None None None (T "text/plain") None
    (Some body) (Some body) None.

Definition three_invoices : list Message :=
  [ simple (T "Invoice 1") (T "first");
    simple (T "Invoice 2") (T "second");
    simple (T "Invoice 3") (T "third") ].

(** A mailbox of the given messages, numbered from 1 in listing order;
    headers need no decoding, the model pair is given, the probe returns
    and saving does not raise. *)
Definition mailbox_ids (n : nat) : list text :=
  map (fun k => [ascii_of_nat (48 + k)]) (seq 1 n).

Definition mailbox (msgs : list Message) (model : option Model) : Env :=
  {| parseaddr := parseaddr_basic;
     decode_header := fun s => Some s;
     bytes_decode := fun b => b;
     imap_search := SearchOk (mailbox_ids (length msgs));
     imap_fetch := fun msg_id =>
       match msg_id with
       | [c] =>
           match nth_error msgs (code c - 49) with
           | Some msg => FetchOk msg
           | None => FetchNotOk
           end
       | _ => FetchNotOk
       end;
     noop := fun _ => NoopReturns;
     load := model;
     now := fun _ => T "2024-01-01 00:00:00";
     save_raises := fun _ => false |}.

Definition empty_state : State :=
  {| ledger := None; count := 0; raised := false |}.


(* ================================================================= *)
(** ** Vocabulary of the further properties *)

(** The extensions [attachment_types_from_list] collects before it sorts
    them: the list [exts] of the source. *)
Definition extensions (names : list (option text)) : list text :=
  flat_map (fun n =>
    let '(_, ext) := splitext (strip (or_empty n)) in
    if nonempty ext then [lower (lstrip_char "." ext)] else [])
    names.

(** Strictly ascending order of texts. *)
Definition text_lt (a b : text) : Prop := compare_text a b = Lt.

(** A text whose white space is single spaces: no white-space character
    other than the space, and no two in a row.  The flag says that a space
    stands just before the text. *)
Fixpoint single_spaced (prev : bool) (s : text) : bool :=
  match s with
  | [] => true
  | c :: r =>
      if is_space c
      then eqb_char c " " && negb prev && single_spaced true r
      else single_spaced false r
  end.

(** The table row with the six values of an accepted message. *)
Definition row_of_candidate (c : Candidate) : Row :=
  {| r_subject := Some (c_subject c);
     r_body := Some (c_body c);
     r_from_domain := Some (c_from_domain c);
     r_reply_domain := Some (c_reply_domain c);
     r_attachment_types := Some (c_attachment_types c);
     r_amount := Some (amount_arg (c_amount_value c)) |}.

(** The list [toks] of [predict_email_risk] before it is sorted: token and
    weight of every column of [X.nonzero()], in that order; [None] when
    the names or the weights are missing or a column is out of range. *)
Definition weighted_tokens (clf : Classifier) (vec : Vectorizer) (X : SparseRow)
    : option (list (text * Q)) :=
  do feats <- get_feature_names_out vec;
  do weights <- match coef_ clf with
                | Some (row0 :: _) => Some row0
                | _ => None
                end;
  traverse (fun i =>
    do t <- nth_error feats i;
    do w <- nth_error weights i;
    Some (t, w)) (nonzero_cols X).

(** A model whose probability is one of two levels; it has neither names
    nor weights. *)
Definition two_level_model : Model :=
  ({| predict_proba := fun X =>
        Some (FFin (if nonempty X then (7 # 8)%Q else (1 # 8)%Q));
      coef_ := None |},
   {| transform := fun txt =>
        Some (if contains (T "urgent") txt then [(0%nat, 1%Q)] else []);
      get_feature_names_out := None |}).

(** A model whose probability is always the double nearest to 0.005. *)
Definition half_percent_model : Model :=
  ({| predict_proba := fun _ => Some (round_double (5 # 1000));
      coef_ := None |},
   {| transform := fun _ => Some []; get_feature_names_out := None |}).

(** The turns [1..n] of a run on which the probe is sent, with the
    default [every=50] of the call in [process_all]. *)
Definition probe_turns (noop : NoopOutcome) (n : nat) : list nat :=
  filter (fun i =>
            match maybe_keepalive noop (Z.of_nat i) 50 with
            | Some sent => sent
            | None => false
            end)
         (seq 1 n).

(* ================================================================= *)
(** * Properties *)

(** ** Text *)

Section TextFacts.

Lemma eqb_char_true (a b : ascii) : eqb_char a b = true <-> a = b.
Proof. unfold eqb_char. apply Ascii.eqb_eq. Qed.

Lemma eqb_char_false (a b : ascii) : eqb_char a b = false <-> a <> b.
Proof. unfold eqb_char. apply Ascii.eqb_neq. Qed.

Lemma startswith_app (p s : text) :
  startswith p s = true <-> exists post, s = p ++ post.
Proof.
  revert s. induction p as [|x p IH]; intros s; simpl.
  - split; [exists s; reflexivity | reflexivity].
  - destruct s as [|y s].
    + split; [discriminate | intros [post H]; discriminate].
    + rewrite andb_true_iff, eqb_char_true, IH. split.
      * intros [-> [post ->]]. exists post. reflexivity.
      * intros [post H]. injection H as -> ->. split; [reflexivity | eauto].
Qed.

(** [contains] decides occurrence. *)
Lemma contains_occurs (needle hay : text) :
  contains needle hay = true <-> occurs needle hay.
Proof.
  unfold occurs. induction hay as [|c hay IH]; simpl.
  - rewrite orb_false_r, startswith_app. split.
    + intros [post H]. exists [], post. exact H.
    + intros [pre [post H]]. destruct pre; [eauto | discriminate].
  - rewrite orb_true_iff, startswith_app, IH. split.
    + intros [[post H] | [pre [post H]]].
      * exists [], post. exact H.
      * exists (c :: pre), post. simpl. now rewrite H.
    + intros [pre [post H]]. destruct pre as [|x pre]; simpl in H.
      * left. eauto.
      * right. injection H as _ H. eauto.
Qed.

(** A character that the needle does not have cuts every occurrence. *)
Lemma startswith_cut (n a b : text) (c : ascii) :
  ~ In c n -> startswith n (a ++ c :: b) = startswith n a.
Proof.
  revert a. induction n as [|y n IH]; intros a Hc; [reflexivity|].
  destruct a as [|x a]; simpl.
  - assert (Hyc : eqb_char y c = false).
    { apply eqb_char_false. intros ->. apply Hc. now left. }
    now rewrite Hyc.
  - rewrite IH; [reflexivity | intros H; apply Hc; now right].
Qed.

Lemma contains_cut (n a b : text) (c : ascii) :
  n <> [] -> ~ In c n ->
  contains n (a ++ c :: b) = contains n a || contains n b.
Proof.
  intros Hn Hc. induction a as [|x a IH].
  - simpl app. change (contains n (c :: b))
      with (startswith n (c :: b) || contains n b).
    pose proof (startswith_cut n [] b c Hc) as H.
    change ([] ++ c :: b) with (c :: b) in H. rewrite H.
    destruct n; [contradiction | reflexivity].
  - change (contains n ((x :: a) ++ c :: b))
      with (startswith n ((x :: a) ++ c :: b) || contains n (a ++ c :: b)).
    rewrite (startswith_cut n (x :: a) b c Hc), IH.
    change (contains n (x :: a)) with (startswith n (x :: a) || contains n a).
    now rewrite orb_assoc.
Qed.

Lemma lower_app (a b : text) : lower (a ++ b) = lower a ++ lower b.
Proof. apply map_app. Qed.

Lemma lower_char_idem (c : ascii) : lower_char (lower_char c) = lower_char c.
Proof. destruct c as [[] [] [] [] [] [] [] []]; reflexivity. Qed.

Lemma lower_idem (s : text) : lower (lower s) = lower s.
Proof.
  unfold lower. rewrite map_map. apply map_ext. intros; apply lower_char_idem.
Qed.

End TextFacts.

(** ** The invoice gate *)

(** The token cannot straddle the line break between subject and body: it
    occurs in the lowered text exactly when it occurs in the lowered subject
    or in the lowered body. *)
Lemma invoice_in_subject_or_body (subject body : text) :
  contains (T "invoice") (lower (subject ++ T "
" ++ body))
  = contains (T "invoice") (lower subject) || contains (T "invoice") (lower body).
Proof.
  rewrite lower_app. simpl app. simpl lower at 2.
  change (lower_char "010"%char :: lower body) with ("010"%char :: lower body).
  apply contains_cut.
  - discriminate.
  - simpl. intros H. repeat (destruct H as [H | H]; [discriminate|]). exact H.
Qed.

(** C8. The gate lowers the text made of subject, line break and body, and
    looks for the token [invoice] in it: the answer is [(true, "keyword")]
    exactly when the token occurs, and [(false, "no strong signal")] exactly
    when it does not; there is no third answer. *)
Theorem looks_like_invoice_keyword (subject body : text) (attachments : list Attachment) :
  let txt := lower (subject ++ T "
" ++ body) in
  (looks_like_invoice subject body attachments = (true, T "keyword")
     <-> occurs (T "invoice") txt) /\
  (looks_like_invoice subject body attachments = (false, T "no strong signal")
     <-> ~ occurs (T "invoice") txt) /\
  (occurs (T "invoice") txt
     <-> occurs (T "invoice") (lower subject) \/ occurs (T "invoice") (lower body)).
Proof.
  intros txt. unfold looks_like_invoice. fold txt.
  pose proof (contains_occurs (T "invoice") txt) as Hocc.
  repeat split.
  - destruct (contains (T "invoice") txt); [intros _; now apply Hocc | discriminate].
  - intros H. apply Hocc in H. now rewrite H.
  - destruct (contains (T "invoice") txt); [discriminate|].
    intros _ H. apply Hocc in H. discriminate.
  - intros H. destruct (contains (T "invoice") txt); [|reflexivity].
    exfalso. apply H. now apply Hocc.
  - intros H. apply Hocc in H. unfold txt in H.
    rewrite invoice_in_subject_or_body in H. apply orb_true_iff in H.
    destruct H as [H | H]; [left | right]; now apply contains_occurs.
  - intros H. apply Hocc. unfold txt. rewrite invoice_in_subject_or_body.
    apply orb_true_iff. destruct H as [H | H]; [left | right];
      now apply contains_occurs.
Qed.

(** C10. The attachments argument has no influence on the gate. *)
Theorem looks_like_invoice_ignores_attachments
    (subject body : text) (a1 a2 : list Attachment) :
  looks_like_invoice subject body a1 = looks_like_invoice subject body a2.
Proof. reflexivity. Qed.

(** ** The ledger and the loop *)

Section Loop.

Variable env : Env.

Lemma extend_extend (wb : Workbook) (r1 r2 : list (list Cell)) :
  extend (extend wb r1) r2 = extend wb (r1 ++ r2).
Proof.
  destruct r1 as [|a r1]; [reflexivity|].
  destruct r2 as [|b r2]; simpl.
  - now rewrite app_nil_r.
  - now rewrite <- app_assoc.
Qed.

(** A write that returns appends the row; one that raises appends
    nothing, and leaves at most a new file with its header. *)
Lemma write_row_returns (i : nat) (saved_at : text) (wb : Workbook)
    (c : Candidate) (ml : Cell * Cell) :
  write_returns env i (row_of saved_at c ml) = true ->
  write_row (save_raises env i) saved_at wb c ml
  = (Some (ensure_workbook wb ++ [row_of saved_at c ml]), true).
Proof.
  unfold write_returns, write_row, append_invoice_row. fold (row_of saved_at c ml).
  intros H. apply andb_true_iff in H. destruct H as [Hs Hc].
  apply negb_true_iff in Hs, Hc. now rewrite Hs, Hc.
Qed.


Lemma rows_of_cons (i : nat) (msg_id : text) (rest : list text) :
  rows_of env i (msg_id :: rest) = rows_of env i [msg_id] ++ rows_of env (S i) rest.
Proof. simpl. now rewrite app_nil_r. Qed.

(** A turn that no exception leaves appends the row of its message, or
    leaves the sheet alone, and the loop goes on. *)
Lemma process_message_returns (i : nat) (msg_id : text) (st : State) :
  turn_returns env i msg_id = true ->
  process_message env i msg_id st
  = Continue {| ledger := extend (ledger st) (rows_of env i [msg_id]);
                count := count st + length (rows_of env i [msg_id]);
                raised := raised st |}.
Proof.
  unfold turn_returns, probe_returns, process_message. cbn [rows_of].
  destruct (maybe_keepalive (noop env i) (Z.of_nat i) 50); [|discriminate].
  cbn [andb].
  destruct (imap_fetch env msg_id) as [msg| |]; try discriminate.
  - destruct (candidate_of env msg) as [c|].
    + intros Hw. rewrite (write_row_returns _ _ _ _ _ Hw). cbn.
      now replace (count st + 1) with (S (count st)) by lia.
    + intros _. cbn. rewrite Nat.add_0_r. now destruct st.
  - intros _. cbn. rewrite Nat.add_0_r. now destruct st.
Qed.


(** The loop that no exception leaves appends the rows of its messages in
    the order it visits them, and never touches the rows already there. *)
Lemma process_loop_returns (ids : list text) :
  forall (i : nat) (st : State),
    run_returns env i ids = true ->
    process_loop env i ids st
    = {| ledger := extend (ledger st) (rows_of env i ids);
         count := count st + length (rows_of env i ids);
         raised := raised st |}.
Proof.
  induction ids as [|msg_id rest IH]; intros i st H.
  - cbn. rewrite Nat.add_0_r. now destruct st.
  - cbn [run_returns] in H. apply andb_true_iff in H. destruct H as [Ht Hr].
    cbn [process_loop]. rewrite (process_message_returns _ _ _ Ht), (IH _ _ Hr).
    cbn [ledger count raised].
    rewrite extend_extend, <- rows_of_cons, (rows_of_cons i msg_id rest), length_app.
    f_equal. lia.
Qed.

Lemma process_loop_ledger (ids : list text) (i : nat) (st : State) :
  run_returns env i ids = true ->
  ledger (process_loop env i ids st) = extend (ledger st) (rows_of env i ids).
Proof. intros H. now rewrite (process_loop_returns ids i st H). Qed.

Lemma process_loop_count (ids : list text) (i : nat) (st : State) :
  run_returns env i ids = true ->
  count (process_loop env i ids st) = count st + length (rows_of env i ids).
Proof. intros H. now rewrite (process_loop_returns ids i st H). Qed.


(** Every route by which the scoring call raises: the model pair cannot
    be loaded, the vectorizer raises, the classifier raises, or the
    probability times 100 is no finite number, on which [round] raises. *)
Lemma score_raises (c : Candidate) :
  score env c = None <->
  load env = None \/
  exists clf vec, load env = Some (clf, vec) /\
    (transform vec (candidate_text c) = None \/
     exists X, transform vec (candidate_text c) = Some X /\
       (predict_proba clf X = None \/
        exists p, predict_proba clf X = Some p /\ py_round (times p 100) = None)).
Proof.
  unfold score, predict_email_risk. fold (candidate_text c).
  destruct (load env) as [[clf vec]|].
  - destruct (transform vec (candidate_text c)) as [X|] eqn:HX.
    + destruct (predict_proba clf X) as [p|] eqn:Hp.
      * destruct (py_round (times p 100)) as [z|] eqn:Hz; split.
        -- discriminate.
        -- intros [H | (clf' & vec' & H & Hcase)]; [discriminate|].
           injection H as <- <-.
           destruct Hcase as [H' | (X' & H1 & Hcase)]; [congruence|].
           rewrite HX in H1. injection H1 as <-.
           destruct Hcase as [H2 | (p' & H2 & H3)]; [congruence|].
           rewrite Hp in H2. injection H2 as <-. congruence.
        -- intros _. right. exists clf, vec. split; [reflexivity|].
           right. exists X. split; [exact HX|]. right. exists p. now split.
        -- reflexivity.
      * split; [|reflexivity]. intros _. right. exists clf, vec.
        split; [reflexivity|]. right. exists X. split; [exact HX | now left].
    + split; [|reflexivity]. intros _. right. exists clf, vec.
      split; [reflexivity|]. left. exact HX.
  - split; [intros _; now left | reflexivity].
Qed.

End Loop.

(** C4, as the code has it.  When the scoring call of an accepted
    candidate raises, for whatever reason, and the write of its row
    returns, the row is appended, its score and token cells are empty, and
    the loop goes on with the next message; when no exception leaves the
    remaining turns, their rows follow that row in the final sheet. *)
Theorem scoring_failure_keeps_row (env : Env) (i : nat) (msg_id : text)
    (rest : list text) (st : State) (msg : Message) (c : Candidate) :
  probe_returns env i = true ->
  imap_fetch env msg_id = FetchOk msg ->
  candidate_of env msg = Some c ->
  score env c = None ->
  write_returns env i (row_of (now env i) c (CStr [], CStr [])) = true ->
  let row := row_of (now env i) c (CStr [], CStr []) in
  let st' := {| ledger := Some (ensure_workbook (ledger st) ++ [row]);
                count := S (count st); raised := raised st |} in
  column "ML Risk Score" row = Some (CStr []) /\
  column "ML Top Tokens" row = Some (CStr []) /\
  process_message env i msg_id st = Continue st' /\
  process_loop env i (msg_id :: rest) st = process_loop env (S i) rest st' /\
  (run_returns env (S i) rest = true ->
   ledger (process_loop env i (msg_id :: rest) st)
   = Some (ensure_workbook (ledger st) ++ row :: rows_of env (S i) rest)).
Proof.
  intros Hprobe Hfetch Hcand Hscore Hwrite row st'.
  assert (Hturn : turn_returns env i msg_id = true).
  { unfold turn_returns. now rewrite Hprobe, Hfetch, Hcand, Hscore. }
  assert (Hstep : process_message env i msg_id st = Continue st').
  { rewrite (process_message_returns env i msg_id st Hturn). cbn [rows_of].
    rewrite Hfetch, Hcand, Hscore. cbn. unfold st'. fold row.
    now replace (count st + 1) with (S (count st)) by lia. }
  repeat split.
  - exact Hstep.
  - cbn [process_loop]. now rewrite Hstep.
  - intros Hrest. rewrite process_loop_ledger
      by (cbn [run_returns]; now rewrite Hturn, Hrest).
    cbn [rows_of]. rewrite Hfetch, Hcand, Hscore. reflexivity.
Qed.

Lemma scoring_failure_keeps_row_witness :
  let env := mailbox [scenario_A (T "application/pdf") []] None in
  exists c,
    candidate_of env (scenario_A (T "application/pdf") []) = Some c /\
    score env c = None /\
    process_message env 1 (T "1") empty_state
    = Continue {| ledger := Some (ensure_workbook None ++
                                  [row_of (now env 1) c (CStr [], CStr [])]);
                  count := 1; raised := false |}.
Proof.
  intros env. eexists. split; [vm_compute; reflexivity|]. split; [reflexivity|].
  apply (scoring_failure_keeps_row env 1 (T "1") [] empty_state
           (scenario_A (T "application/pdf") [])); reflexivity.
Defined.

(** A row that the spreadsheet library refuses is lost, and the run with
    it: with a control character in the subject of the most recent
    message and no model to load, the scoring call raises and is caught,
    the write raises and is not, and the run ends with a sheet that has
    its header only, the older invoice unvisited. *)
Lemma scoring_failure_row_lost :
  let env := mailbox [ simple (T "Invoice 1") (T "first");
                       simple ("001"%char :: T "Invoice 2") (T "second") ] None in
  exists msg c,
    imap_fetch env (T "2") = FetchOk msg /\
    candidate_of env msg = Some c /\
    score env c = None /\
    process_message env 1 (T "2") empty_state
    = Stop {| ledger := Some [HEADER]; count := 0; raised := false |} /\
    process_all env 200 empty_state
    = {| ledger := Some [HEADER]; count := 0; raised := true |}.
Proof.
  intros env. eexists. eexists.
  split; [reflexivity|]. split; [vm_compute; reflexivity|].
  split; [reflexivity|]. split; reflexivity.
Qed.

(** ** The batch cut *)

Lemma lastn_length {A : Type} (k : nat) (l : list A) :
  length (lastn k l) = Nat.min k (length l).
Proof. unfold lastn. rewrite length_skipn. lia. Qed.

Lemma lastn_suffix {A : Type} (k : nat) (l : list A) :
  l = firstn (length l - k) l ++ lastn k l.
Proof. unfold lastn. now rewrite firstn_skipn. Qed.

(** For a limit of at least one the cut keeps the last [min(limit, 200)]
    identifiers of the listing. *)
Lemma batch_positive (limit : Z) (msg_ids : list text) :
  (1 <= limit)%Z ->
  batch limit msg_ids = lastn (Z.to_nat (Z.min limit 200)) msg_ids.
Proof.
  intros Hl. unfold batch, slice_from, lastn.
  destruct (Z.ltb_spec (- Z.min limit 200) 0) as [_ | H]; [|lia].
  f_equal. lia.
Qed.

(** A limit of zero, and also a negative one, does not bound the batch:
    [msg_ids[-0:]] is the whole listing and [msg_ids[k:]] drops the [k]
    oldest identifiers only. *)
Lemma batch_zero (msg_ids : list text) : batch 0 msg_ids = msg_ids.
Proof.
  unfold batch, slice_from.
  change (- Z.min 0 200)%Z with 0%Z. change (0 <? 0)%Z with false. cbv iota.
  replace (Z.to_nat (Z.min 0 (Z.of_nat (length msg_ids)))) with 0%nat by lia.
  reflexivity.
Qed.

Lemma batch_negative (limit : Z) (msg_ids : list text) :
  (limit < 0)%Z -> batch limit msg_ids = skipn (Z.to_nat (- limit)) msg_ids.
Proof.
  intros Hl. unfold batch, slice_from.
  destruct (Z.ltb_spec (- Z.min limit 200) 0) as [H | _]; [lia|].
  destruct (Z.le_ge_cases (- limit) (Z.of_nat (length msg_ids))) as [H | H].
  - f_equal. lia.
  - replace (Z.to_nat (Z.min (- Z.min limit 200) (Z.of_nat (length msg_ids))))
      with (length msg_ids) by lia.
    rewrite skipn_all. symmetry. apply skipn_all2. lia.
Qed.

(** With a limit of at least one, the run visits at most [limit]
    identifiers, the most recent ones, the most recent first, and, when no
    exception leaves the loop, the rows it appends stand in the order of
    the visit. *)
Lemma process_all_recent_first (env : Env) (limit : Z) (st : State)
    (msg_ids : list text) :
  (1 <= limit)%Z ->
  imap_search env = SearchOk msg_ids ->
  run_returns env 1 (rev (batch limit msg_ids)) = true ->
  let k := Z.to_nat (Z.min limit 200) in
  (length (batch limit msg_ids) <= Z.to_nat limit)%nat /\
  msg_ids = firstn (length msg_ids - k) msg_ids ++ batch limit msg_ids /\
  process_all env limit st
    = process_loop env 1 (rev (batch limit msg_ids)) (start st) /\
  ledger (process_all env limit st)
    = extend (ledger st) (rows_of env 1 (rev (lastn k msg_ids))).
Proof.
  intros Hl Hs Hrun k. rewrite (batch_positive limit msg_ids Hl) in *. fold k in Hrun |- *.
  unfold process_all. rewrite Hs, (batch_positive limit msg_ids Hl). fold k.
  repeat split.
  - rewrite lastn_length. lia.
  - apply lastn_suffix.
  - now rewrite process_loop_ledger.
Qed.

(** C3, at the limit 0.  The cut [msg_ids[-min(limit, 200):]] is then
    [msg_ids[0:]], the whole listing: on a mailbox of three invoices the run
    with limit 0 visits all three and appends three rows, where at most 0
    identifiers should be visited. *)
Theorem process_all_limit_zero_takes_all :
  (forall msg_ids, batch 0 msg_ids = msg_ids) /\
  let env := mailbox three_invoices None in
  batch 0 (mailbox_ids 3) = [T "1"; T "2"; T "3"] /\
  count (process_all env 0 empty_state) = 3%nat /\
  ledger (process_all env 0 empty_state)
    = Some (HEADER :: rows_of env 1 [T "3"; T "2"; T "1"]).
Proof.
  split; [exact batch_zero|]. intros env. repeat split.
Qed.

(** ** The amount token *)

Lemma amt_token_same (v : pyval) : amt_token v = _amt_token v.
Proof. reflexivity. Qed.

Lemma Qlt_bool_iff (a b : Q) : Qlt_bool a b = true <-> (a < b)%Q.
Proof.
  unfold Qlt_bool. rewrite negb_true_iff. split.
  - intros H. apply Qnot_le_lt. intros Hle. apply Qle_bool_iff in Hle. congruence.
  - intros H. destruct (Qle_bool b a) eqn:E; [|reflexivity].
    apply Qle_bool_iff in E. exfalso. exact (Qlt_not_le _ _ H E).
Qed.

Lemma Qlt_bool_false (a b : Q) : Qlt_bool a b = false <-> (b <= a)%Q.
Proof.
  unfold Qlt_bool. rewrite negb_false_iff. apply Qle_bool_iff.
Qed.

(** The three bins of a number: below 100, from 100 to below 1000, and from
    1000 on. *)
Lemma amt_token_number (q : Q) :
  (_amt_token (PyFloat (FFin q)) = T "AMOUNT_BIN:LOW" <-> (q < 100)%Q) /\
  (_amt_token (PyFloat (FFin q)) = T "AMOUNT_BIN:MED" <-> (100 <= q < 1000)%Q) /\
  (_amt_token (PyFloat (FFin q)) = T "AMOUNT_BIN:HIGH" <-> (1000 <= q)%Q).
Proof.
  unfold _amt_token, float, flt.
  change (inject_Z 100) with 100%Q. change (inject_Z 1000) with 1000%Q.
  destruct (Qlt_bool q 100) eqn:E1; [| destruct (Qlt_bool q 1000) eqn:E2].
  - apply Qlt_bool_iff in E1.
    assert (H2 : (q < 1000)%Q) by (eapply Qlt_trans; [exact E1 | reflexivity]).
    repeat split; try discriminate; try (intros _; exact E1).
    + intros [H _]. exfalso. exact (Qlt_not_le _ _ E1 H).
    + intros H. exfalso. exact (Qlt_not_le _ _ H2 H).
  - apply Qlt_bool_false in E1. apply Qlt_bool_iff in E2.
    repeat split; try discriminate; try assumption.
    + intros H. exfalso. exact (Qlt_not_le _ _ H E1).
    + intros H. exfalso. exact (Qlt_not_le _ _ E2 H).
  - apply Qlt_bool_false in E1. apply Qlt_bool_false in E2.
    repeat split; try discriminate; try assumption; try (intros _; assumption).
    + intros H. exfalso. exact (Qlt_not_le _ _ H E1).
    + intros [_ H]. exfalso. exact (Qlt_not_le _ _ H E2).
Qed.

(** What [float] rejects is binned as unknown: [None], and every string
    that is no number. *)
Lemma amt_token_unknown (v : pyval) :
  float v = None -> _amt_token v = T "AMOUNT_BIN:UNK".
Proof. unfold _amt_token. now intros ->. Qed.

(** C7, at a missing amount of the training table.  [main] of
    [train_model.py] fills a missing [amount] with [nan]; [float] accepts
    it, both comparisons are false, and the bin is HIGH, not UNK.  The
    runtime's missing amount is [None], whose bin is UNK. *)
Theorem amt_token_missing_amount_is_high :
  (forall row, r_amount row = None ->
     r_amount (prepare_row row) = Some (PyFloat FNan)) /\
  amt_token (PyFloat FNan) = T "AMOUNT_BIN:HIGH" /\
  _amt_token (PyFloat FNan) = T "AMOUNT_BIN:HIGH" /\
  amt_token (PyStr (T "nan")) = T "AMOUNT_BIN:HIGH" /\
  _amt_token PyNone = T "AMOUNT_BIN:UNK".
Proof.
  repeat split. intros row H. unfold prepare_row. simpl. now rewrite H.
Qed.

(** ** The feature codec *)

Section Codec.

Lemma collapse_split (w : ascii) (s1 s2 : text) :
  is_space w = true ->
  forall b, collapse_from b (s1 ++ w :: s2)
            = collapse_from b (s1 ++ [w]) ++ collapse_from true s2.
Proof.
  intros Hw. induction s1 as [|c s1 IH]; intros b; simpl.
  - rewrite Hw. now destruct b.
  - destruct (is_space c); [destruct b|]; simpl; now rewrite IH.
Qed.

Lemma collapse_after_space (s : text) (b : bool) :
  collapse_from true s = collapse_from b (lstrip s).
Proof.
  induction s as [|c r IH]; [reflexivity|]. simpl.
  destruct (is_space c) eqn:E; [exact IH|]. simpl. now rewrite E.
Qed.

Lemma collapse_solid_end (c : ascii) (s : text) :
  is_space c = false ->
  forall b, collapse_from b (s ++ [c]) = collapse_from b s ++ [c].
Proof.
  intros Hc. induction s as [|x s IH]; intros b; simpl.
  - now rewrite Hc.
  - destruct (is_space x); [destruct b|]; simpl; now rewrite IH.
Qed.

Lemma collapse_starts_solid (s : text) :
  starts_solid s -> starts_solid (collapse_ws s).
Proof.
  destruct s as [|c s]; [exact id|]. unfold collapse_ws. simpl.
  intros H. now rewrite H.
Qed.

Lemma lstrip_starts_solid (s : text) : starts_solid (lstrip s).
Proof.
  induction s as [|c s IH]; [exact I|]. simpl.
  destruct (is_space c) eqn:E; [exact IH | exact E].
Qed.

Lemma lstrip_solid (s : text) : starts_solid s -> lstrip s = s.
Proof. destruct s as [|c s]; [reflexivity|]. simpl. now intros ->. Qed.

Lemma lstrip_app_solid (u z : text) :
  starts_solid z -> lstrip (u ++ z) = lstrip u ++ z.
Proof.
  intros Hz. induction u as [|c u IH]; simpl.
  - now apply lstrip_solid.
  - destruct (is_space c); [exact IH | reflexivity].
Qed.

Lemma lstrip_keeps_end (w : ascii) (x : text) :
  lstrip (x ++ [w]) = [] \/ exists u, lstrip (x ++ [w]) = u ++ [w].
Proof.
  induction x as [|c x IH]; simpl.
  - destruct (is_space w); [now left | right; now exists []].
  - destruct (is_space c); [exact IH|]. right. now exists (c :: x).
Qed.

Lemma rstrip_solid_end (c : ascii) (s : text) :
  is_space c = false -> rstrip (s ++ [c]) = s ++ [c].
Proof.
  intros Hc. unfold rstrip. rewrite rev_app_distr. simpl. rewrite Hc.
  simpl. now rewrite rev_involutive.
Qed.

Lemma starts_solid_app (a b : text) :
  starts_solid a -> starts_solid b -> starts_solid (a ++ b).
Proof. destruct a; [now intros _ | now intros]. Qed.

(** The token ends with a letter. *)
Lemma amt_token_solid_end (v : pyval) :
  exists tk c, _amt_token v = tk ++ [c] /\ is_space c = false.
Proof.
  unfold _amt_token.
  destruct (float v) as [x|];
    [destruct (flt x 100); [|destruct (flt x 1000)]|].
  - exists (T "AMOUNT_BIN:LO"), "W"%char. now split.
  - exists (T "AMOUNT_BIN:ME"), "D"%char. now split.
  - exists (T "AMOUNT_BIN:HIG"), "H"%char. now split.
  - exists (T "AMOUNT_BIN:UN"), "K"%char. now split.
Qed.

Lemma nl_space : is_space "010"%char = true.
Proof. reflexivity. Qed.

(** The combined text is the subject's segment, then the body's, then the
    tagged tail; no segment depends on the fields of another. *)
Lemma combine_segments (subject body from_domain reply_domain attachment_types : option text)
    (amount : pyval) :
  _combine subject body from_domain reply_domain attachment_types amount
  = subject_segment subject ++ body_segment body
    ++ tag_segment from_domain reply_domain attachment_types amount.
Proof.
  unfold _combine, subject_segment, body_segment, tag_segment, strip, collapse_ws.
  set (s := or_empty subject). set (b := or_empty body).
  cbn [join]. unfold nl. change (T "
") with ["010"%char].
  set (tags := T "FROM:" ++ lower (or_empty from_domain) ++ ["010"%char] ++
               T "REPLY:" ++ lower (or_empty reply_domain) ++ ["010"%char] ++
               T "ATTACH:" ++ lower (or_empty attachment_types) ++ ["010"%char] ++
               _amt_token amount).
  replace ((T "FROM:" ++ lower (or_empty from_domain)) ++ ["010"%char] ++
           (T "REPLY:" ++ lower (or_empty reply_domain)) ++ ["010"%char] ++
           (T "ATTACH:" ++ lower (or_empty attachment_types)) ++ ["010"%char] ++
           _amt_token amount) with tags
    by (unfold tags; now rewrite <- !app_assoc).
  assert (Htags : starts_solid tags) by reflexivity.
  (* the subject's part *)
  change (s ++ ["010"%char] ++ b ++ ["010"%char] ++ tags)
    with (s ++ "010"%char :: (b ++ ["010"%char] ++ tags)).
  rewrite (collapse_split _ _ _ nl_space),
          (collapse_after_space _ false).
  (* the body's part *)
  rewrite (app_assoc b), (lstrip_app_solid _ tags Htags).
  assert (Hbody : collapse_from false (lstrip (b ++ ["010"%char]) ++ tags)
                  = collapse_from false (lstrip (b ++ ["010"%char]))
                    ++ collapse_from false tags).
  { destruct (lstrip_keeps_end "010"%char b) as [-> | [u ->]]; [reflexivity|].
    rewrite <- app_assoc. change ([ "010"%char ] ++ tags) with ("010"%char :: tags).
    rewrite (collapse_split _ _ _ nl_space), (collapse_after_space _ false).
    now rewrite (lstrip_solid _ Htags). }
  rewrite Hbody.
  (* the two ends *)
  rewrite lstrip_app_solid.
  2:{ apply starts_solid_app.
      - apply (collapse_starts_solid _ (lstrip_starts_solid _)).
      - apply (collapse_starts_solid _ Htags). }
  destruct (amt_token_solid_end amount) as (tk & c & Htk & Hc).
  assert (Hend : exists w, collapse_from false tags = w ++ [c]).
  { unfold tags. rewrite Htk, !app_assoc.
    rewrite (collapse_solid_end c _ Hc). eauto. }
  destruct Hend as [w ->].
  rewrite !app_assoc. now apply rstrip_solid_end.
Qed.

(** The combined text is a single line. *)
Lemma collapse_no_newline (s : text) (b : bool) :
  ~ In "010"%char (collapse_from b s).
Proof.
  revert b. induction s as [|c s IH]; intros b; simpl; [exact id|].
  destruct (is_space c) eqn:E; [destruct b|]; simpl.
  - apply IH.
  - intros [H | H]; [discriminate | exact (IH _ H)].
  - intros [H | H]; [subst c; discriminate | exact (IH _ H)].
Qed.

End Codec.

(** C9. The codec is a function of its six arguments, so equal arguments
    give the same text; and two calls that differ in the body only give
    texts that differ in the body's segment only: the subject's segment
    before it and the tagged tail after it are the same in both. *)
Theorem combine_deterministic_and_body_local
    (subject body body' from_domain reply_domain attachment_types : option text)
    (amount : pyval) :
  _combine subject body from_domain reply_domain attachment_types amount
  = _combine subject body from_domain reply_domain attachment_types amount /\
  exists before after,
    before = subject_segment subject /\
    after = tag_segment from_domain reply_domain attachment_types amount /\
    _combine subject body from_domain reply_domain attachment_types amount
    = before ++ body_segment body ++ after /\
    _combine subject body' from_domain reply_domain attachment_types amount
    = before ++ body_segment body' ++ after.
Proof.
  split; [reflexivity|].
  exists (subject_segment subject),
         (tag_segment from_domain reply_domain attachment_types amount).
  repeat split; apply combine_segments.
Qed.

(** The runtime codec is the training combiner applied to lowered domain
    and attachment fields. *)
Lemma _combine_as_combine (subject body from_domain reply_domain attachment_types : option text)
    (amount : pyval) :
  _combine subject body from_domain reply_domain attachment_types amount
  = combine {| r_subject := subject; r_body := body;
               r_from_domain := Some (lower (or_empty from_domain));
               r_reply_domain := Some (lower (or_empty reply_domain));
               r_attachment_types := Some (lower (or_empty attachment_types));
               r_amount := Some amount |}.
Proof. reflexivity. Qed.

(** So the two agree on fields that lowering leaves as they are. *)
Lemma combine_agree_on_lowered (row : Row) (amount : pyval) :
  lower (or_empty (r_from_domain row)) = or_empty (r_from_domain row) ->
  lower (or_empty (r_reply_domain row)) = or_empty (r_reply_domain row) ->
  lower (or_empty (r_attachment_types row)) = or_empty (r_attachment_types row) ->
  r_amount row = Some amount ->
  _combine (r_subject row) (r_body row) (r_from_domain row) (r_reply_domain row)
    (r_attachment_types row) amount
  = combine row.
Proof.
  intros Hf Hr Ha Hm. unfold _combine, combine.
  now rewrite Hf, Hr, Ha, Hm.
Qed.

(** The domains that [main.py] passes are such fields. *)
Lemma domain_from_header_lowered (env : Env) (header_value : option text) :
  lower (domain_from_header env header_value) = domain_from_header env header_value.
Proof.
  unfold domain_from_header.
  destruct (parseaddr env (or_empty header_value)) as [name email_addr].
  destruct (nonempty email_addr && contains (T "@") email_addr);
    [apply lower_idem | reflexivity].
Qed.

(** C1, at a sender domain with capitals.  The runtime codec lowers the
    domain, the training combiner keeps it as the table has it, and the two
    combined texts differ. *)
Theorem combine_differs_on_capital_domain :
  let row := {| r_subject := Some (T "Invoice"); r_body := Some (T "pay");
                r_from_domain := Some (T "ACME.com");
                r_reply_domain := Some [];
                r_attachment_types := Some (T "pdf");
                r_amount := Some (PyFloat (FFin 250)) |} in
  _combine (r_subject row) (r_body row) (r_from_domain row) (r_reply_domain row)
    (r_attachment_types row) (PyFloat (FFin 250))
  = T "Invoice pay FROM:acme.com REPLY: ATTACH:pdf AMOUNT_BIN:MED" /\
  combine row = T "Invoice pay FROM:ACME.com REPLY: ATTACH:pdf AMOUNT_BIN:MED" /\
  _combine (r_subject row) (r_body row) (r_from_domain row) (r_reply_domain row)
    (r_attachment_types row) (PyFloat (FFin 250))
  <> combine row.
Proof.
  intros row. split; [reflexivity|]. split; [reflexivity|].
  intros H. vm_compute in H. discriminate H.
Qed.

(** ** Scenario A *)

Lemma decode_plain (env : Env) (raw : text) :
  raw <> [] -> decode_header env raw = Some raw ->
  decode_mime_header env (Some raw) = raw.
Proof.
  intros Hne H. unfold decode_mime_header. rewrite H.
  destruct raw; [contradiction | reflexivity].
Qed.

Lemma attached_is_attachment (ctype name : text) (data : list ascii) :
  is_attachment (attached ctype name data) = true.
Proof.
  unfold is_attachment, attached, leaf. cbn [h_content_disposition or_empty].
  rewrite lower_app. reflexivity.
Qed.

Lemma attached_not_body (ctype name : text) (data : list ascii) :
  is_plain_body (attached ctype name data) = false.
Proof.
  unfold is_plain_body. rewrite attached_is_attachment. apply andb_false_r.
Qed.

Section ScenarioA.

Variable env : Env.
Variables (attachment_ctype : text) (data : list ascii).

Hypothesis parse_bill :
  parseaddr env (T "Bill <bill@acme.com>") = (T "Bill", T "bill@acme.com").
Hypothesis plain_subject :
  decode_header env (T "Invoice #1234 due") = Some (T "Invoice #1234 due").
Hypothesis plain_sender :
  decode_header env (T "Bill <bill@acme.com>") = Some (T "Bill <bill@acme.com>").
Hypothesis plain_filename :
  decode_header env (T "invoice.pdf") = Some (T "invoice.pdf").

Let msg := scenario_A attachment_ctype data.
Let body := T "Please pay $250.00 to acme.com".
Let att := attached attachment_ctype (T "invoice.pdf") data.

Lemma scenario_A_walk : walk msg = [msg; plain body; att].
Proof. reflexivity. Qed.

Lemma scenario_A_body : extract_text_body env msg = body.
Proof.
  unfold extract_text_body. change (is_multipart msg) with true. cbv iota.
  rewrite scenario_A_walk. cbn [filter].
  change (is_plain_body msg) with false.
  change (is_plain_body (plain body)) with true.
  unfold att. rewrite attached_not_body. reflexivity.
Qed.

Lemma scenario_A_attachments :
  list_attachments env msg
  = [ {| fname := T "invoice.pdf"; size := length data; is_pdf := true |} ].
Proof.
  unfold list_attachments. rewrite scenario_A_walk. cbn [filter].
  change (is_attachment msg) with false.
  change (is_attachment (plain body)) with false.
  unfold att. rewrite attached_is_attachment. cbn [map]. fold att.
  change (filename att) with (Some (T "invoice.pdf")).
  rewrite (decode_plain env (T "invoice.pdf")) by (discriminate || assumption).
  change (content_type att) with attachment_ctype.
  change (or_empty (payload att)) with data.
  f_equal. f_equal.
  change (endswith (T ".pdf") (lower (T "invoice.pdf"))) with true.
  apply orb_true_r.
Qed.

Lemma scenario_A_sender_domain :
  domain_from_header env (Some (T "Bill <bill@acme.com>")) = T "acme.com".
Proof.
  unfold domain_from_header. cbn [or_empty]. rewrite parse_bill. reflexivity.
Qed.

Lemma scenario_A_accepted : candidate_of env msg = Some (scenario_A_candidate env).
Proof.
  unfold candidate_of.
  rewrite scenario_A_body, scenario_A_attachments.
  change (h_subject msg) with (Some (T "Invoice #1234 due")).
  change (h_from msg) with (Some (T "Bill <bill@acme.com>")).
  change (h_date msg) with (@None text).
  change (h_message_id msg) with (@None text).
  change (h_reply_to msg) with (@None text).
  rewrite !decode_plain by (discriminate || assumption).
  rewrite scenario_A_sender_domain.
  reflexivity.
Qed.

End ScenarioA.

(** C2, at scenario A.  The gate accepts with reason [keyword].  The
    docstring of [extract_amount_guess] says it looks for a number in the
    email body, but the loop hands it subject, line break and body: the
    guess is the invoice number 1234 of the subject, where the body alone
    gives 250.00; its bin is HIGH, not MED; and the row handed to the
    sheet, which is appended when the probe and the write return, has
    [HasPDF] true, [FromDomain] [acme.com], [AttachmentTypes] [pdf] and
    [AmountGuess] 1234.0. *)
Theorem scenario_A_row (env : Env) (attachment_ctype : text) (data : list ascii)
    (i : nat) (msg_id : text) (st : State) :
  imap_fetch env msg_id = FetchOk (scenario_A attachment_ctype data) ->
  parseaddr env (T "Bill <bill@acme.com>") = (T "Bill", T "bill@acme.com") ->
  decode_header env (T "Invoice #1234 due") = Some (T "Invoice #1234 due") ->
  decode_header env (T "Bill <bill@acme.com>") = Some (T "Bill <bill@acme.com>") ->
  decode_header env (T "invoice.pdf") = Some (T "invoice.pdf") ->
  let msg := scenario_A attachment_ctype data in
  let subject := decode_mime_header env (h_subject msg) in
  let body := extract_text_body env msg in
  let amount := extract_amount_guess (subject ++ T "
" ++ body) in
  looks_like_invoice subject body (list_attachments env msg) = (true, T "keyword") /\
  amount = Some (FFin 1234) /\
  extract_amount_guess body = Some (FFin 250) /\
  _amt_token (amount_arg amount) = T "AMOUNT_BIN:HIGH" /\
  exists c row,
    candidate_of env msg = Some c /\
    row = row_of (now env i) c (ml_cells (score env c)) /\
    (probe_returns env i = true -> write_returns env i row = true ->
     process_message env i msg_id st
     = Continue {| ledger := Some (ensure_workbook (ledger st) ++ [row]);
                   count := S (count st); raised := raised st |}) /\
    column "Reason" row = Some (CStr (T "keyword")) /\
    column "HasPDF" row = Some (CBool true) /\
    column "FromDomain" row = Some (CStr (T "acme.com")) /\
    column "AttachmentTypes" row = Some (CStr (T "pdf")) /\
    column "AmountGuess" row = Some (CFloat (FFin 1234)).
Proof.
  intros Hfetch Hparse Hsubj Hfrom Hname msg subject body amount.
  assert (Hs : subject = T "Invoice #1234 due").
  { apply decode_plain; [discriminate | exact Hsubj]. }
  assert (Hb : body = T "Please pay $250.00 to acme.com").
  { apply scenario_A_body. }
  unfold amount. rewrite Hs, Hb.
  split; [reflexivity|]. split; [vm_compute; reflexivity|].
  split; [vm_compute; reflexivity|]. split; [vm_compute; reflexivity|].
  pose proof (scenario_A_accepted env attachment_ctype data Hparse Hsubj Hfrom Hname)
    as Hcand.
  exists (scenario_A_candidate env),
         (row_of (now env i) (scenario_A_candidate env)
            (ml_cells (score env (scenario_A_candidate env)))).
  split; [exact Hcand|]. split; [reflexivity|]. split; [|repeat split].
  intros Hprobe Hwrite.
  assert (Hturn : turn_returns env i msg_id = true).
  { unfold turn_returns. now rewrite Hprobe, Hfetch, Hcand. }
  rewrite (process_message_returns env i msg_id st Hturn). cbn [rows_of].
  rewrite Hfetch, Hcand. cbn.
  now replace (count st + 1) with (S (count st)) by lia.
Qed.

Lemma scenario_A_row_witness :
  let env := mailbox [scenario_A (T "application/pdf") []] None in
  let msg := scenario_A (T "application/pdf") [] in
  imap_fetch env (T "1") = FetchOk msg /\
  extract_amount_guess
    (decode_mime_header env (h_subject msg) ++ T "
" ++ extract_text_body env msg)
  = Some (FFin 1234).
Proof.
  intros env msg. split; [reflexivity|].
  apply (scenario_A_row env (T "application/pdf") [] 1 (T "1") empty_state);
    reflexivity.
Defined.

(** The guess 250.00 of the body alone and its bin MED are not what the
    run gives. *)
Lemma scenario_A_amount_is_not_250 :
  let env := mailbox [scenario_A (T "application/pdf") []] None in
  ~ (exists c,
       candidate_of env (scenario_A (T "application/pdf") []) = Some c /\
       c_reason c = T "keyword" /\
       c_amount_value c = Some (FFin 250) /\
       _amt_token (amount_arg (c_amount_value c)) = T "AMOUNT_BIN:MED" /\
       c_has_pdf c = true /\
       c_from_domain c = T "acme.com" /\
       c_attachment_types c = T "pdf").
Proof.
  intros env [c [Hc (_ & Hamount & _)]].
  vm_compute in Hc. injection Hc as <-. discriminate Hamount.
Qed.

(** ** Body extraction *)

(** Induction over a message and, through the list, over its subparts. *)
Lemma Message_nested_ind (P : Message -> Prop) :
  (forall m, (forall ps, subparts m = Some ps -> Forall P ps) -> P m) ->
  forall m, P m.
Proof.
  intros step. fix IH 1. intros m. apply step.
  destruct m as [s f d r i cd ct fn c p sub]. cbn [subparts].
  intros ps Hps. destruct sub as [l|]; [|discriminate].
  injection Hps as <-.
  induction l as [|x l IHl]; constructor; [apply IH | exact IHl].
Qed.

Lemma filter_flat_map {A B : Type} (keep : B -> bool) (f : A -> list B) (l : list A) :
  filter keep (flat_map f l) = flat_map (fun x => filter keep (f x)) l.
Proof.
  induction l as [|x l IH]; [reflexivity|]. simpl.
  now rewrite filter_app, IH.
Qed.

Lemma flat_map_ext_Forall {A B : Type} (f g : A -> list B) (l : list A) :
  Forall (fun x => f x = g x) l -> flat_map f l = flat_map g l.
Proof.
  induction 1 as [|x l Hx _ IH]; [reflexivity|]. simpl. now rewrite Hx, IH.
Qed.

Lemma walk_unfold (m : Message) :
  walk m = m :: match subparts m with
                | Some ps => flat_map walk ps
                | None => []
                end.
Proof. destruct m. reflexivity. Qed.

Lemma plain_parts_unfold (m : Message) :
  plain_parts m = (if is_plain_body m then [m] else []) ++
                  match subparts m with
                  | Some ps => flat_map plain_parts ps
                  | None => []
                  end.
Proof. destruct m. reflexivity. Qed.

(** Filtering the walk gives the qualifying parts of every depth, in
    document order. *)
Lemma walk_plain_parts (m : Message) :
  filter is_plain_body (walk m) = plain_parts m.
Proof.
  induction m as [m IH] using Message_nested_ind.
  rewrite walk_unfold, plain_parts_unfold. cbn [filter].
  destruct (subparts m) as [ps|].
  - specialize (IH ps eq_refl).
    rewrite filter_flat_map,
      (flat_map_ext_Forall (fun x => filter is_plain_body (walk x)) plain_parts ps IH).
    now destruct (is_plain_body m).
  - now destruct (is_plain_body m).
Qed.

(** When no subpart is itself a multipart and the message itself does not
    qualify, these are the qualifying parts of the first level. *)
Lemma plain_parts_leaves (ps : list Message) :
  Forall (fun p => subparts p = None) ps ->
  flat_map plain_parts ps = filter is_plain_body ps.
Proof.
  induction 1 as [|p l Hp _ IH]; [reflexivity|]. cbn [flat_map filter].
  rewrite IH, plain_parts_unfold, Hp, app_nil_r.
  now destruct (is_plain_body p).
Qed.

Lemma plain_parts_flat (m : Message) (ps : list Message) :
  subparts m = Some ps ->
  is_plain_body m = false ->
  Forall (fun p => subparts p = None) ps ->
  plain_parts m = filter is_plain_body ps.
Proof.
  intros Hps Hm Hflat. rewrite plain_parts_unfold, Hps, Hm. cbn [app].
  now apply plain_parts_leaves.
Qed.

Lemma extract_text_body_first_level (env : Env) (m : Message) (ps : list Message) :
  subparts m = Some ps ->
  is_plain_body m = false ->
  Forall (fun p => subparts p = None) ps ->
  extract_text_body env m = first_level_body env m.
Proof.
  intros Hps Hm Hflat. unfold extract_text_body, first_level_body, is_multipart.
  rewrite walk_plain_parts, (plain_parts_flat m ps Hps Hm Hflat), Hps.
  reflexivity.
Qed.

(** C6, as the code has it.  For a multipart message the body is the
    line-break join, trimmed, of the texts of the plain-text parts of every
    depth whose disposition does not say [attachment], in document order
    (the walk does not stop at the first level); a single-part plain-text
    message yields its own text, untrimmed; any other single-part message
    yields the empty text. *)
Theorem extract_text_body_every_depth (env : Env) (msg : Message) :
  extract_text_body env msg
  = if is_multipart msg
    then strip (join (T "
") (map (part_text env) (plain_parts msg)))
    else if eqb_text (content_type msg) (T "text/plain")
         then part_text env msg
         else [].
Proof.
  unfold extract_text_body. now rewrite walk_plain_parts.
Qed.

(** A text below the first level is part of the body. *)
Lemma extract_text_body_not_first_level :
  let env := mailbox [] None in
  extract_text_body env nested_message = T "hello" /\
  first_level_body env nested_message = [] /\
  extract_text_body env nested_message <> first_level_body env nested_message.
Proof.
  intros env. split; [reflexivity|]. split; [reflexivity|]. discriminate.
Qed.

(** ** The risk score and its explanation *)

Section Rounding.

Lemma round_half_even_cases (q : Q) :
  round_half_even q = Qfloor q \/ round_half_even q = (Qfloor q + 1)%Z.
Proof.
  unfold round_half_even.
  destruct (Qlt_bool _ _); [now left|].
  destruct (Qlt_bool _ _); [now right|].
  destruct (Z.even _); [now left | now right].
Qed.

(** The rounded value is within one half of the number. *)
Lemma round_half_even_near (q : Q) :
  (inject_Z (round_half_even q) - (1 # 2) <= q
   /\ q <= inject_Z (round_half_even q) + (1 # 2))%Q.
Proof.
  pose proof (Qfloor_le q) as Hlo. pose proof (Qlt_floor q) as Hhi.
  rewrite inject_Z_plus in Hhi. change (inject_Z 1) with 1%Q in Hhi.
  unfold round_half_even.
  destruct (Qlt_bool (q - inject_Z (Qfloor q)) (1 # 2)) eqn:E1.
  - apply Qlt_bool_iff in E1. split; lra.
  - apply Qlt_bool_false in E1.
    assert (Hup : (inject_Z (Qfloor q + 1) = inject_Z (Qfloor q) + 1)%Q).
    { rewrite inject_Z_plus. reflexivity. }
    destruct (Qlt_bool (1 # 2) (q - inject_Z (Qfloor q))) eqn:E2.
    + rewrite Hup. split; lra.
    + apply Qlt_bool_false in E2.
      destruct (Z.even (Qfloor q)); [|rewrite Hup]; split; lra.
Qed.


(** A probability gives a percentage. *)
Lemma round_percentage (p : Q) :
  (0 <= p)%Q -> (p <= 1)%Q -> (0 <= round_half_even (p * 100) <= 100)%Z.
Proof.
  intros H0 H1. destruct (round_half_even_near (p * 100)) as [Hlo Hhi].
  set (r := round_half_even (p * 100)) in *.
  assert (Ha : (inject_Z (-1) < inject_Z r)%Q).
  { change (inject_Z (-1)) with (-1)%Q. lra. }
  assert (Hb : (inject_Z r < inject_Z 101)%Q).
  { change (inject_Z 101) with 101%Q. lra. }
  rewrite <- Zlt_Qlt in Ha, Hb. lia.
Qed.

Lemma round_half_even_Z (n : Z) : round_half_even (inject_Z n) = n.
Proof.
  unfold round_half_even. rewrite Qfloor_Z.
  assert (E : Qlt_bool (inject_Z n - inject_Z n) (1 # 2) = true)
    by (apply Qlt_bool_iff; lra).
  now rewrite E.
Qed.

Lemma pow2_pos (e : Z) : (0 < pow2 e)%Q.
Proof. apply Qpower_0_lt. reflexivity. Qed.

Lemma pow2_add (a b : Z) : (pow2 (a + b) == pow2 a * pow2 b)%Q.
Proof. apply Qpower_plus. discriminate. Qed.

Lemma pow2_lt (a b : Z) : (a < b)%Z -> (pow2 a < pow2 b)%Q.
Proof. intros H. apply Qpower_lt_compat_l; [exact H | reflexivity]. Qed.

Lemma pow2_le (a b : Z) : (a <= b)%Z -> (pow2 a <= pow2 b)%Q.
Proof. intros H. apply Qpower_le_compat_l; [exact H | discriminate]. Qed.

Lemma pow2_lt_inv (a b : Z) : (pow2 a < pow2 b)%Q -> (a < b)%Z.
Proof. intros H. apply (Qpower_lt_compat_l_inv 2); [exact H | reflexivity]. Qed.

Lemma pow2_Z (e : Z) : (0 <= e)%Z -> (pow2 e == inject_Z (2 ^ e))%Q.
Proof. intros H. symmetry. apply (Zpower_Qpower 2 e H). Qed.

Lemma pow2_cancel (e : Z) : (pow2 (- e) * pow2 e == 1)%Q.
Proof. rewrite <- pow2_add. now replace (- e + e)%Z with 0%Z by lia. Qed.


Lemma Q_num_den (q : Q) : (q * inject_Z (Zpos (Qden q)) == inject_Z (Qnum q))%Q.
Proof. destruct q as [n d]. unfold Qeq. simpl. lia. Qed.

(** [ilog2 q] is the binary exponent of a positive [q]. *)
Lemma ilog2_spec (q : Q) :
  (0 < q)%Q -> (pow2 (ilog2 q) <= q)%Q /\ (q < pow2 (ilog2 q + 1))%Q.
Proof.
  intros Hq. unfold ilog2.
  set (n := Qnum q). set (d := Zpos (Qden q)).
  assert (Hn : (0 < n)%Z).
  { destruct q as [n' d']. unfold Qlt in Hq. simpl in *. subst n. lia. }
  assert (Hd : (0 < d)%Z) by (subst d; lia).
  destruct (Z.log2_spec n Hn) as [Hn1 Hn2].
  destruct (Z.log2_spec d Hd) as [Hd1 Hd2].
  set (a := Z.log2 n) in *. set (b := Z.log2 d) in *.
  assert (Ha : (0 <= a)%Z) by apply Z.log2_nonneg.
  assert (Hb : (0 <= b)%Z) by apply Z.log2_nonneg.
  pose proof (Q_num_den q) as Hqd. fold n d in Hqd.
  rewrite Zle_Qle in Hn1, Hd1. rewrite Zlt_Qlt in Hn2, Hd2.
  replace (Z.succ a) with (a + 1)%Z in Hn2 by lia.
  replace (Z.succ b) with (b + 1)%Z in Hd2 by lia.
  rewrite <- pow2_Z in Hn1, Hn2, Hd1, Hd2 by lia.
  pose proof (pow2_pos b) as Pb. pose proof (pow2_pos (b + 1)) as Pb1.
  assert (Hup : (q < pow2 (a - b + 1))%Q).
  { assert (E : (pow2 (a - b + 1) * pow2 b == pow2 (a + 1))%Q).
    { rewrite <- pow2_add. now replace (a - b + 1 + b)%Z with (a + 1)%Z by lia. }
    pose proof (pow2_pos (a - b + 1)). nra. }
  assert (Hlo : (pow2 (a - b - 1) <= q)%Q).
  { assert (E : (pow2 (a - b - 1) * pow2 (b + 1) == pow2 a)%Q).
    { rewrite <- pow2_add. now replace (a - b - 1 + (b + 1))%Z with a by lia. }
    pose proof (pow2_pos (a - b - 1)). nra. }
  destruct (Qle_bool (pow2 (a - b)) q) eqn:E.
  - apply Qle_bool_iff in E. split; assumption.
  - replace (a - b - 1 + 1)%Z with (a - b)%Z by lia. split; [exact Hlo|].
    apply Qnot_le_lt. intros H. apply Qle_bool_iff in H. congruence.
Qed.

Lemma ilog2_unique (q : Q) (k : Z) :
  (pow2 k <= q)%Q -> (q < pow2 (k + 1))%Q -> ilog2 q = k.
Proof.
  intros H1 H2.
  assert (Hq : (0 < q)%Q) by (pose proof (pow2_pos k); lra).
  destruct (ilog2_spec q Hq) as [H3 H4].
  assert (A : (ilog2 q < k + 1)%Z) by (apply pow2_lt_inv; lra).
  assert (B : (k < ilog2 q + 1)%Z) by (apply pow2_lt_inv; lra).
  lia.
Qed.

Lemma ilog2_mono (q1 q2 : Q) :
  (0 < q1)%Q -> (q1 <= q2)%Q -> (ilog2 q1 <= ilog2 q2)%Z.
Proof.
  intros H1 H2.
  destruct (ilog2_spec q1 H1) as [A _].
  destruct (ilog2_spec q2) as [_ B]; [lra|].
  assert (C : (ilog2 q1 < ilog2 q2 + 1)%Z) by (apply pow2_lt_inv; lra).
  lia.
Qed.


(** Half-even rounding keeps the order. *)
Lemma round_half_even_mono (q q' : Q) :
  (q <= q')%Q -> (round_half_even q <= round_half_even q')%Z.
Proof.
  intros Hle.
  pose proof (Qfloor_resp_le _ _ Hle) as Hf.
  destruct (Z.eq_dec (Qfloor q) (Qfloor q')) as [Heq | Hne].
  - unfold round_half_even. rewrite <- Heq.
    set (f := Qfloor q).
    destruct (Qlt_bool (q - inject_Z f) (1 # 2)) eqn:A1.
    + destruct (Qlt_bool (q' - inject_Z f) (1 # 2));
        [|destruct (Qlt_bool (1 # 2) (q' - inject_Z f)); [|destruct (Z.even f)]];
        lia.
    + apply Qlt_bool_false in A1.
      assert (B1 : Qlt_bool (q' - inject_Z f) (1 # 2) = false)
        by (apply Qlt_bool_false; lra).
      rewrite B1.
      destruct (Qlt_bool (1 # 2) (q - inject_Z f)) eqn:A2.
      * apply Qlt_bool_iff in A2.
        assert (B2 : Qlt_bool (1 # 2) (q' - inject_Z f) = true)
          by (apply Qlt_bool_iff; lra).
        rewrite B2. lia.
      * destruct (Qlt_bool (1 # 2) (q' - inject_Z f));
          destruct (Z.even f); lia.
  - destruct (round_half_even_cases q) as [-> | ->];
      destruct (round_half_even_cases q') as [-> | ->]; lia.
Qed.

Lemma round_half_even_nonneg (q : Q) :
  (0 <= q)%Q -> (0 <= round_half_even q)%Z.
Proof.
  intros H. change 0%Z with (round_half_even (inject_Z 0)) at 1.
  rewrite <- (round_half_even_Z 0) at 1. now apply round_half_even_mono.
Qed.

Lemma round_positive_eq (q : Q) :
  round_positive q
  = (inject_Z (round_half_even (q * pow2 (- ulp_exp q))) * pow2 (ulp_exp q))%Q.
Proof. reflexivity. Qed.

Lemma scaled_lt (q : Q) :
  (0 < q)%Q -> (q * pow2 (- ulp_exp q) < pow2 53)%Q.
Proof.
  intros Hq. destruct (ilog2_spec q Hq) as [_ H].
  set (e := ulp_exp q).
  assert (He : (ilog2 q + 1 <= e + 53)%Z) by (unfold e, ulp_exp; lia).
  pose proof (pow2_le _ _ He) as H1.
  pose proof (pow2_add e 53) as H2.
  pose proof (pow2_cancel e) as H3.
  pose proof (pow2_pos e). pose proof (pow2_pos (- e)). pose proof (pow2_pos 53).
  assert (Hsc : (q < pow2 e * pow2 53)%Q) by lra.
  nra.
Qed.

Lemma round_positive_nonneg (q : Q) : (0 < q)%Q -> (0 <= round_positive q)%Q.
Proof.
  intros Hq. rewrite round_positive_eq.
  pose proof (pow2_pos (ulp_exp q)). pose proof (pow2_pos (- ulp_exp q)).
  assert (H1 : (0 <= round_half_even (q * pow2 (- ulp_exp q)))%Z).
  { apply round_half_even_nonneg. nra. }
  rewrite Zle_Qle in H1. change (inject_Z 0) with 0%Q in H1. nra.
Qed.

(** The rounded value of a positive number stays within its binade. *)
Lemma round_positive_le_top (q : Q) :
  (0 < q)%Q -> (round_positive q <= pow2 (ulp_exp q + 53))%Q.
Proof.
  intros Hq. rewrite round_positive_eq.
  pose proof (scaled_lt q Hq) as H.
  assert (H1 : (round_half_even (q * pow2 (- ulp_exp q)) <= 2 ^ 53)%Z).
  { rewrite <- (round_half_even_Z (2 ^ 53)). apply round_half_even_mono.
    rewrite <- pow2_Z by lia. lra. }
  rewrite Zle_Qle in H1. rewrite <- pow2_Z in H1 by lia.
  rewrite pow2_add. pose proof (pow2_pos (ulp_exp q)). nra.
Qed.

Lemma round_positive_ge_bottom (q : Q) :
  (0 < q)%Q -> (-1074 < ulp_exp q)%Z ->
  (pow2 (ulp_exp q + 52) <= round_positive q)%Q.
Proof.
  intros Hq He. rewrite round_positive_eq.
  destruct (ilog2_spec q Hq) as [H _].
  set (e := ulp_exp q) in *.
  assert (Ee : ilog2 q = (e + 52)%Z) by (unfold e, ulp_exp in *; lia).
  rewrite Ee in H.
  pose proof (pow2_add e 52) as H2.
  pose proof (pow2_cancel e) as H3.
  pose proof (pow2_pos e). pose proof (pow2_pos (- e)). pose proof (pow2_pos 52).
  assert (Hsc : (pow2 52 <= q * pow2 (- e))%Q) by nra.
  assert (Hm : (2 ^ 52 <= round_half_even (q * pow2 (- e)))%Z).
  { rewrite <- (round_half_even_Z (2 ^ 52)). apply round_half_even_mono.
    rewrite <- pow2_Z by lia. lra. }
  rewrite Zle_Qle in Hm. rewrite <- pow2_Z in Hm by lia. nra.
Qed.

(** Rounding to a double keeps the order. *)
Lemma round_positive_mono (q1 q2 : Q) :
  (0 < q1)%Q -> (q1 <= q2)%Q -> (round_positive q1 <= round_positive q2)%Q.
Proof.
  intros H1 H2.
  assert (Hq2 : (0 < q2)%Q) by lra.
  pose proof (ilog2_mono q1 q2 H1 H2) as Hk.
  assert (He : (ulp_exp q1 <= ulp_exp q2)%Z) by (unfold ulp_exp; lia).
  destruct (Z.eq_dec (ulp_exp q1) (ulp_exp q2)) as [E | N].
  - rewrite !round_positive_eq, E.
    pose proof (pow2_pos (ulp_exp q2)). pose proof (pow2_pos (- ulp_exp q2)).
    assert (A : (round_half_even (q1 * pow2 (- ulp_exp q2))
                 <= round_half_even (q2 * pow2 (- ulp_exp q2)))%Z).
    { apply round_half_even_mono. nra. }
    rewrite Zle_Qle in A. nra.
  - pose proof (round_positive_le_top q1 H1) as A.
    assert (B : (-1074 < ulp_exp q2)%Z) by (unfold ulp_exp in *; lia).
    pose proof (round_positive_ge_bottom q2 Hq2 B) as C.
    assert (D : (pow2 (ulp_exp q1 + 53) <= pow2 (ulp_exp q2 + 52))%Q)
      by (apply pow2_le; lia).
    lra.
Qed.

Lemma round_value_nonneg (q : Q) : (0 <= q)%Q -> (0 <= round_value q)%Q.
Proof.
  intros H. unfold round_value.
  destruct (Qlt_bool q 0) eqn:A.
  - apply Qlt_bool_iff in A. lra.
  - destruct (Qlt_bool 0 q) eqn:B; [|lra].
    apply Qlt_bool_iff in B. now apply round_positive_nonneg.
Qed.

Lemma round_value_nonpos (q : Q) : (q <= 0)%Q -> (round_value q <= 0)%Q.
Proof.
  intros H. unfold round_value.
  destruct (Qlt_bool q 0) eqn:A.
  - apply Qlt_bool_iff in A.
    assert (B : (0 <= round_positive (- q))%Q) by (apply round_positive_nonneg; lra).
    lra.
  - apply Qlt_bool_false in A.
    destruct (Qlt_bool 0 q) eqn:B; [|lra].
    apply Qlt_bool_iff in B. lra.
Qed.

Lemma round_value_mono (q1 q2 : Q) :
  (q1 <= q2)%Q -> (round_value q1 <= round_value q2)%Q.
Proof.
  intros H.
  destruct (Qlt_le_dec q1 0) as [N1 | P1].
  - destruct (Qlt_le_dec q2 0) as [N2 | P2].
    + unfold round_value.
      apply Qlt_bool_iff in N1, N2. rewrite N1, N2.
      apply Qlt_bool_iff in N1, N2.
      assert (A : (round_positive (- q2) <= round_positive (- q1))%Q)
        by (apply round_positive_mono; lra).
      lra.
    + pose proof (round_value_nonneg q2 P2).
      assert (A : (round_value q1 <= 0)%Q) by (apply round_value_nonpos; lra).
      lra.
  - destruct (Qlt_le_dec 0 q1) as [Q1 | Z1].
    + unfold round_value.
      assert (A1 : Qlt_bool q1 0 = false) by (apply Qlt_bool_false; lra).
      assert (A2 : Qlt_bool q2 0 = false) by (apply Qlt_bool_false; lra).
      assert (B1 : Qlt_bool 0 q1 = true) by (apply Qlt_bool_iff; lra).
      assert (B2 : Qlt_bool 0 q2 = true) by (apply Qlt_bool_iff; lra).
      rewrite A1, A2, B1, B2. now apply round_positive_mono.
    + assert (A : (round_value q1 <= 0)%Q) by (apply round_value_nonpos; lra).
      assert (B : (0 <= round_value q2)%Q) by (apply round_value_nonneg; lra).
      lra.
Qed.


Lemma round_double_finite (q x : Q) :
  round_double q = FFin x -> (x == round_value q)%Q.
Proof.
  unfold round_double.
  destruct (Qle_bool _ _); intros H; inversion H. apply Qred_correct.
Qed.

Lemma round_double_not_nan (q : Q) : round_double q <> FNan.
Proof. unfold round_double. destruct (Qle_bool _ _); discriminate. Qed.




Lemma round_value_proper (q q' : Q) :
  (q == q')%Q -> (round_value q == round_value q')%Q.
Proof.
  intros E. apply Qle_antisym; apply round_value_mono; rewrite E; apply Qle_refl.
Qed.

(** Rounding to a double depends on the value of the rational only, not
    on how the fraction is written. *)
Lemma round_double_proper (q q' : Q) :
  (q == q')%Q -> round_double q = round_double q'.
Proof.
  intros E. pose proof (round_value_proper q q' E) as Ev. unfold round_double.
  assert (A : Qle_bool (pow2 1024) (Qabs (round_value q))
              = Qle_bool (pow2 1024) (Qabs (round_value q'))).
  { apply eq_true_iff_eq. rewrite !Qle_bool_iff. now rewrite Ev. }
  assert (B : Qlt_bool q 0 = Qlt_bool q' 0).
  { apply eq_true_iff_eq. rewrite !Qlt_bool_iff. now rewrite E. }
  rewrite A, B, (Qred_complete _ _ Ev). reflexivity.
Qed.

Lemma Qred_inject_Z (n : Z) : Qred (inject_Z n) = inject_Z n.
Proof.
  unfold Qred, inject_Z.
  pose proof (Z.ggcd_gcd n 1) as Hg.
  pose proof (Z.ggcd_correct_divisors n 1) as Hd.
  destruct (Z.ggcd n 1) as [g [a b]]. cbn [fst snd] in *.
  rewrite Z.gcd_1_r in Hg. subst g. destruct Hd as [Ha Hb].
  replace a with n by lia. replace b with 1%Z by lia. reflexivity.
Qed.

(** A whole number below [2^53] is a double. *)
Lemma round_double_integer (n : Z) :
  (0 <= n < 2 ^ 53)%Z -> round_double (inject_Z n) = FFin (inject_Z n).
Proof.
  intros [H0 H53].
  destruct (Z.eq_dec n 0) as [-> | Hn]; [reflexivity|].
  assert (Hq : (0 < inject_Z n)%Q).
  { change 0%Q with (inject_Z 0). rewrite <- Zlt_Qlt. lia. }
  assert (Hv : (round_value (inject_Z n) == inject_Z n)%Q).
  { unfold round_value.
    assert (A : Qlt_bool (inject_Z n) 0 = false) by (apply Qlt_bool_false; lra).
    assert (B : Qlt_bool 0 (inject_Z n) = true) by (apply Qlt_bool_iff; lra).
    rewrite A, B, round_positive_eq.
    set (e := ulp_exp (inject_Z n)).
    assert (He : (e <= 0)%Z).
    { destruct (ilog2_spec _ Hq) as [C _].
      assert (D : (ilog2 (inject_Z n) < 53)%Z).
      { apply pow2_lt_inv. eapply Qle_lt_trans; [exact C|].
        rewrite (pow2_Z 53) by lia. rewrite <- Zlt_Qlt. exact H53. }
      unfold e, ulp_exp. lia. }
    assert (Hs : (inject_Z n * pow2 (- e) == inject_Z (n * 2 ^ (- e)))%Q).
    { rewrite inject_Z_mult, (pow2_Z (- e)) by lia. reflexivity. }
    assert (Hr : round_half_even (inject_Z n * pow2 (- e)) = (n * 2 ^ (- e))%Z).
    { rewrite <- (round_half_even_Z (n * 2 ^ (- e))).
      apply Z.le_antisymm; apply round_half_even_mono; rewrite Hs; apply Qle_refl. }
    rewrite Hr, <- Hs, <- Qmult_assoc, pow2_cancel. ring. }
  unfold round_double.
  assert (A : Qle_bool (pow2 1024) (Qabs (round_value (inject_Z n))) = false).
  { destruct (Qle_bool _ _) eqn:E; [exfalso | reflexivity].
    apply Qle_bool_iff in E. rewrite Hv, Qabs_pos in E by lra.
    assert (D : (inject_Z n < pow2 53)%Q).
    { rewrite (pow2_Z 53) by lia. rewrite <- Zlt_Qlt. exact H53. }
    assert (F : (pow2 53 <= pow2 1024)%Q) by (apply pow2_le; lia).
    lra. }
  rewrite A. f_equal. rewrite (Qred_complete _ _ Hv).
  apply Qred_inject_Z.
Qed.

End Rounding.

Section Explanation.


Lemma insert_desc_In (x y : text * Q) (l : list (text * Q)) :
  In y (insert_desc x l) -> y = x \/ In y l.
Proof.
  induction l as [|z l IH]; simpl.
  - intros [<- | []]. now left.
  - destruct (Qle_bool (snd z) (snd x)); simpl.
    + intros [<- | H]; [now left | now right].
    + intros [<- | H]; [right; now left|].
      destruct (IH H) as [-> | H']; [now left | right; now right].
Qed.


Lemma insert_desc_sorted (x : text * Q) (l : list (text * Q)) :
  StronglySorted weight_ge l -> StronglySorted weight_ge (insert_desc x l).
Proof.
  induction 1 as [|z l Hs IH Hz]; simpl.
  - constructor; constructor.
  - destruct (Qle_bool (snd z) (snd x)) eqn:E.
    + apply Qle_bool_iff in E. constructor; [now constructor|].
      constructor; [exact E|].
      eapply Forall_impl; [|exact Hz]. unfold weight_ge. intros a Ha.
      eapply Qle_trans; [exact Ha | exact E].
    + constructor; [exact IH|].
      apply Forall_forall. intros a Ha.
      destruct (insert_desc_In _ _ _ Ha) as [-> | Hin].
      * unfold weight_ge. apply Qlt_le_weak, Qlt_bool_iff.
        unfold Qlt_bool. now rewrite E.
      * rewrite Forall_forall in Hz. now apply Hz.
Qed.

Lemma sort_desc_sorted (l : list (text * Q)) :
  StronglySorted weight_ge (sort_desc l).
Proof.
  induction l as [|x l IH]; simpl; [constructor | now apply insert_desc_sorted].
Qed.

Lemma firstn_In {A : Type} (n : nat) (l : list A) (x : A) :
  In x (firstn n l) -> In x l.
Proof.
  revert l. induction n as [|n IH]; intros [|a l]; simpl; try contradiction.
  intros [<- | H]; [now left | right; now apply IH].
Qed.

Lemma sorted_firstn {A : Type} (R : A -> A -> Prop) (n : nat) (l : list A) :
  StronglySorted R l -> StronglySorted R (firstn n l).
Proof.
  intros Hs. revert n. induction Hs as [|a l Hs IH Ha]; intros [|n]; simpl;
    try constructor.
  - apply IH.
  - apply Forall_forall. intros x Hx. rewrite Forall_forall in Ha.
    apply Ha. now apply firstn_In in Hx.
Qed.


(** A column belongs to [X.nonzero()] exactly when the row stores a value
    other than zero in it. *)
Lemma nonzero_cols_In (X : SparseRow) (i : nat) :
  In i (nonzero_cols X) <-> exists v, In (i, v) X /\ ~ (v == 0)%Q.
Proof.
  unfold nonzero_cols. rewrite in_map_iff. split.
  - intros [[j v] [<- H]]. apply filter_In in H. destruct H as [Hin Hv].
    exists v. split; [exact Hin|]. cbn [snd] in Hv.
    apply negb_true_iff in Hv. intros Heq. apply Qeq_bool_iff in Heq. congruence.
  - intros [v [Hin Hv]]. exists (i, v). split; [reflexivity|].
    apply filter_In. split; [exact Hin|]. cbn [snd]. apply negb_true_iff.
    destruct (Qeq_bool v 0) eqn:E; [|reflexivity].
    exfalso. apply Hv. now apply Qeq_bool_iff.
Qed.



End Explanation.



(** ** Amount strings *)

Section AmountStrings.

(** What a digit is not. *)
Lemma digit_facts (c : ascii) :
  is_digit c = true ->
  is_space c = false /\ lower_char c = c /\ (0 <= digit_val c)%Z /\
  eqb_char c "-" = false /\ eqb_char c "+" = false /\
  eqb_char c "_" = false /\ eqb_char c "." = false /\
  eqb_char c "i" = false /\ eqb_char c "n" = false.
Proof.
  destruct c as [[] [] [] [] [] [] [] []]; intros H; try discriminate H;
    repeat split; discriminate.
Qed.

Lemma digits_value_nonneg (d : text) :
  forallb is_digit d = true ->
  forall acc, (0 <= acc)%Z -> (0 <= digits_value d acc)%Z.
Proof.
  unfold digits_value. induction d as [|c d IH]; intros Hd acc Hacc; [exact Hacc|].
  simpl in Hd. apply andb_true_iff in Hd. destruct Hd as [Hc Hd].
  cbn [fold_left]. apply IH; [exact Hd|].
  destruct (digit_facts c Hc) as (_ & _ & Hv & _). lia.
Qed.

Lemma digit_group_run (d : text) :
  forall (c : ascii) (acc : Z) (n : nat) (rest : text),
    forallb is_digit (c :: d) = true -> ends_group rest ->
    digit_group acc n ((c :: d) ++ rest)
    = Some (digits_value (c :: d) acc, (n + length (c :: d))%nat, rest).
Proof.
  induction d as [|c2 d IH]; intros c acc n rest Hd Hrest;
    simpl in Hd; apply andb_true_iff in Hd; destruct Hd as [Hc Hd].
  - cbn [app digit_group]. rewrite Hc.
    replace (n + length [c])%nat with (S n) by (simpl; lia).
    destruct rest as [|u [|v rest]]; [reflexivity| |];
      destruct Hrest as [Hu Hus]; now rewrite Hu, Hus.
  - assert (Hd' : forallb is_digit (c2 :: d) = true) by exact Hd.
    simpl in Hd. apply andb_true_iff in Hd. destruct Hd as [Hc2 Hd].
    destruct (digit_facts c2 Hc2) as (_ & _ & _ & _ & _ & Hus & _).
    specialize (IH c2 (10 * acc + digit_val c)%Z (S n) rest Hd' Hrest).
    replace (n + length (c :: c2 :: d))%nat with (S n + length (c2 :: d))%nat
      by (simpl; lia).
    change (digits_value (c :: c2 :: d) acc)
      with (digits_value (c2 :: d) (10 * acc + digit_val c)%Z).
    rewrite <- IH. cbn [app]. cbn [digit_group]. rewrite Hc.
    destruct (d ++ rest) as [|x l]; now rewrite ?Hus, Hc2.
Qed.

Lemma digit_run_spec (s : text) :
  s = fst (digit_run s) ++ snd (digit_run s) /\
  forallb is_digit (fst (digit_run s)) = true /\
  match snd (digit_run s) with
  | [] => True
  | u :: _ => is_digit u = false
  end.
Proof.
  induction s as [|c r IH]; [now repeat split|]. simpl.
  destruct (is_digit c) eqn:Hc.
  - destruct (digit_run r) as [d rest]. simpl in *.
    destruct IH as (-> & Hd & Hrest). rewrite Hc. now repeat split.
  - simpl. now repeat split.
Qed.

(** The match of the pattern is an amount string. *)
Lemma amount_match_shape (c : ascii) (r : text) :
  is_digit c = true -> amount_string (amount_match (c :: r)).
Proof.
  intros Hc. unfold amount_match.
  destruct (digit_run_spec (c :: r)) as (Hs & Hd & _).
  destruct (digit_run (c :: r)) as [d rest] eqn:Hrun. cbn [fst snd] in *.
  assert (Hd0 : exists d', d = c :: d').
  { simpl in Hrun. rewrite Hc in Hrun. destruct (digit_run r) as [d' rest'].
    injection Hrun as <- _. now exists d'. }
  destruct Hd0 as [d' ->]. unfold amount_string. exists c, d'.
  split; [exact Hd|].
  destruct rest as [|p [|a [|b rest]]]; try (now left).
  destruct (eqb_char p "." && is_digit a && is_digit b) eqn:E; [|now left].
  apply andb_true_iff in E. destruct E as [E Hb].
  apply andb_true_iff in E. destruct E as [Hp Ha].
  apply eqb_char_true in Hp. subst p. right. now exists a, b.
Qed.

Lemma search_amount_shape (s m : text) :
  search_amount s = Some m -> amount_string m.
Proof.
  induction s as [|c r IH]; simpl; [discriminate|].
  destruct (is_digit c) eqn:Hc; [|exact IH].
  intros H. injection H as <-. now apply amount_match_shape.
Qed.

(** The pattern finds a match as soon as the text has a digit. *)
Lemma search_amount_finds (s : text) :
  existsb is_digit s = true -> exists m, search_amount s = Some m.
Proof.
  induction s as [|c r IH]; simpl; [discriminate|].
  destruct (is_digit c); [intros _; eauto | exact IH].
Qed.

Lemma pow10_pos (e : Z) : (0 < pow10 e)%Q.
Proof.
  unfold pow10. destruct (Z.leb_spec 0 e) as [H | H].
  - assert (Hp : (0 < 10 ^ e)%Z) by (apply Z.pow_pos_nonneg; lia).
    unfold Qlt. simpl. lia.
  - assert (Hp : (0 < 10 ^ (- e))%Z) by (apply Z.pow_pos_nonneg; lia).
    apply Qinv_lt_0_compat. unfold Qlt. simpl. lia.
Qed.

Lemma decimal_value_nonneg (i f k e : Z) :
  (0 <= i)%Z -> (0 <= f)%Z ->
  (0 <= Qred ((inject_Z i + inject_Z f * pow10 k) * pow10 e))%Q.
Proof.
  intros Hi Hf. rewrite Qred_correct.
  assert (Hqi : (0 <= inject_Z i)%Q) by (unfold Qle; simpl; lia).
  assert (Hqf : (0 <= inject_Z f)%Q) by (unfold Qle; simpl; lia).
  pose proof (pow10_pos k) as Hk. pose proof (pow10_pos e) as He.
  apply Qmult_le_0_compat; [|now apply Qlt_le_weak].
  assert (H : (0 <= inject_Z f * pow10 k)%Q)
    by (apply Qmult_le_0_compat; [exact Hqf | now apply Qlt_le_weak]).
  lra.
Qed.

Lemma decimal_literal_amount (m : text) :
  amount_string m -> exists q, decimal_literal m = Some q /\ (0 <= q)%Q.
Proof.
  intros (c & d & Hd & [-> | (a & b & Ha & Hb & ->)]).
  - pose proof (digit_group_run d c 0 0 [] Hd I) as Hg.
    rewrite app_nil_r in Hg. unfold decimal_literal. rewrite Hg.
    cbn [exponent]. eexists. split; [reflexivity|].
    apply decimal_value_nonneg; [|lia].
    apply digits_value_nonneg; [exact Hd | lia].
  - assert (Hend : ends_group ("."%char :: [a; b])) by now split.
    pose proof (digit_group_run d c 0 0 _ Hd Hend) as Hg.
    assert (Hab : forallb is_digit (a :: [b]) = true) by (simpl; now rewrite Ha, Hb).
    pose proof (digit_group_run [b] a 0 0 [] Hab I) as Hg2.
    change ((a :: [b]) ++ []) with [a; b] in Hg2.
    unfold decimal_literal. rewrite Hg.
    change (eqb_char "." ".") with true. cbv iota. rewrite Hg2.
    cbn [exponent]. eexists. split; [reflexivity|].
    apply decimal_value_nonneg.
    + apply digits_value_nonneg; [exact Hd | lia].
    + apply digits_value_nonneg; [exact Hab | lia].
Qed.

Lemma amount_string_ends (m : text) :
  amount_string m ->
  exists c r s x, m = c :: r /\ m = s ++ [x] /\ is_digit c = true /\ is_digit x = true.
Proof.
  intros (c & d & Hd & [-> | (a & b & Ha & Hb & ->)]).
  - assert (Hc : is_digit c = true)
      by (simpl in Hd; now apply andb_true_iff in Hd).
    destruct (exists_last (l := c :: d)) as (s & x & Hsx); [discriminate|].
    exists c, d, s, x. repeat split; [exact Hsx | exact Hc |].
    rewrite Hsx, forallb_app in Hd. apply andb_true_iff in Hd.
    destruct Hd as [_ Hx]. simpl in Hx. now rewrite andb_true_r in Hx.
  - assert (Hc : is_digit c = true)
      by (simpl in Hd; now apply andb_true_iff in Hd).
    exists c, (d ++ "."%char :: [a; b]), ((c :: d) ++ ["."%char; a]), b.
    repeat split; [|exact Hc | exact Hb].
    now rewrite <- app_assoc.
Qed.

Lemma digit_not_float_space (c : ascii) :
  is_digit c = true -> is_float_space c = false.
Proof.
  destruct c as [[] [] [] [] [] [] [] []]; intros H; try discriminate H;
    reflexivity.
Qed.

(** [float] drops nothing from a string that starts and ends with a
    character that is no white space. *)
Lemma float_strip_solid (s r s' : text) (c x : ascii) :
  s = c :: r -> s = s' ++ [x] ->
  is_float_space c = false -> is_float_space x = false ->
  float_strip s = s.
Proof.
  intros Hcr Hsx Hc Hx. unfold float_strip.
  assert (E1 : float_lstrip s = s) by (rewrite Hcr; simpl; now rewrite Hc).
  rewrite E1.
  assert (E2 : float_lstrip (rev s) = rev s).
  { rewrite Hsx, rev_app_distr. simpl. now rewrite Hx. }
  rewrite E2. apply rev_involutive.
Qed.

(** A rational that is not negative is rounded to a double that is not
    negative, or to [inf] beyond the range of the doubles. *)
Lemma round_double_nonneg (q : Q) :
  (0 <= q)%Q ->
  round_double q = FInf false \/
  exists v, round_double q = FFin v /\ (0 <= v)%Q.
Proof.
  intros H. unfold round_double.
  assert (E : Qlt_bool q 0 = false) by (apply Qlt_bool_false; lra).
  rewrite E. destruct (Qle_bool _ _); [now left | right].
  eexists. split; [reflexivity|]. rewrite Qred_correct.
  now apply round_value_nonneg.
Qed.

(** [float] of an amount string is the double nearest to its decimal
    value, which is not negative; the [ValueError] branch of
    [extract_amount_guess] is never taken. *)
Lemma float_of_amount_string (m : text) :
  amount_string m ->
  exists q, decimal_literal m = Some q /\ (0 <= q)%Q /\
            float (PyStr m) = Some (round_double q).
Proof.
  intros Hm. destruct (decimal_literal_amount m Hm) as (q & Hq & Hq0).
  destruct (amount_string_ends m Hm) as (c & r & s & x & Hcr & Hsx & Hc & Hx).
  destruct (digit_facts c Hc) as (_ & Hlow & _ & Hminus & Hplus & _ & _ & Hi & Hn).
  exists q. split; [exact Hq|]. split; [exact Hq0|].
  cbn [float]. unfold float_of_text.
  rewrite (float_strip_solid m r s c x Hcr Hsx
             (digit_not_float_space c Hc) (digit_not_float_space x Hx)).
  rewrite Hcr, Hminus, Hplus.
  change (lower (c :: r)) with (lower_char c :: lower r). rewrite Hlow.
  unfold T. cbn [list_ascii_of_string eqb_text]. rewrite Hi, Hn. cbn [andb orb].
  rewrite <- Hcr, Hq. reflexivity.
Qed.

(** The amount guess, when there is one, is a number that is not negative
    or, for a run of digits beyond the range of the doubles, [inf]; never
    [nan]. *)
Lemma extract_amount_guess_number (txt : text) (f : pyfloat) :
  extract_amount_guess txt = Some f ->
  f = FInf false \/ exists q, f = FFin q /\ (0 <= q)%Q.
Proof.
  unfold extract_amount_guess. destruct (negb (nonempty txt)); [discriminate|].
  destruct (search_amount txt) as [m|] eqn:Hm; [|discriminate].
  destruct (float_of_amount_string m (search_amount_shape _ _ Hm))
    as (q & _ & Hq0 & Hf).
  rewrite Hf. intros H. injection H as <-. now apply round_double_nonneg.
Qed.

(** There is a guess as soon as the text has a digit. *)
Lemma extract_amount_guess_some (txt : text) :
  existsb is_digit txt = true -> exists f, extract_amount_guess txt = Some f.
Proof.
  intros Hd. unfold extract_amount_guess.
  destruct txt as [|c r]; [discriminate|]. cbn [nonempty negb].
  destruct (search_amount_finds _ Hd) as [m Hm]. rewrite Hm.
  destruct (float_of_amount_string m (search_amount_shape _ _ Hm))
    as (q & _ & _ & Hf).
  eauto.
Qed.

(** The bins of an amount guess, as the runtime derives them. *)
Lemma amt_token_of_guess (txt : text) (q : Q) :
  extract_amount_guess txt = Some (FFin q) ->
  (_amt_token (amount_arg (Some (FFin q))) = T "AMOUNT_BIN:LOW"
     <-> (0 <= q < 100)%Q) /\
  (_amt_token (amount_arg (Some (FFin q))) = T "AMOUNT_BIN:MED"
     <-> (100 <= q < 1000)%Q) /\
  (_amt_token (amount_arg (Some (FFin q))) = T "AMOUNT_BIN:HIGH"
     <-> (1000 <= q)%Q).
Proof.
  intros H.
  destruct (extract_amount_guess_number _ _ H) as [H' | (q' & Hq' & Hq0)];
    [discriminate|].
  injection Hq' as <-. cbn [amount_arg].
  destruct (amt_token_number q) as (Hl & Hm & Hh).
  split; [|split; assumption]. split.
  - intros Ht. split; [exact Hq0 | now apply Hl].
  - intros [_ Hq]. now apply Hl.
Qed.

End AmountStrings.

(* ================================================================= *)
(** * Further properties of the code *)

(** ** Sender and reply domains *)

Section Domains.

Lemma split_on_no_sep (sep : ascii) (a : text) :
  ~ In sep a -> split_on sep a = [a].
Proof.
  induction a as [|x a IH]; intros H; [reflexivity|]. simpl.
  assert (Hx : eqb_char x sep = false).
  { apply eqb_char_false. intros ->. apply H. now left. }
  rewrite Hx, IH; [reflexivity | intros Hin; apply H; now right].
Qed.

Lemma split_on_first (sep : ascii) (a b : text) :
  ~ In sep a -> split_on sep (a ++ sep :: b) = a :: split_on sep b.
Proof.
  induction a as [|x a IH]; intros H; simpl.
  - assert (Hs : eqb_char sep sep = true) by now apply eqb_char_true.
    now rewrite Hs.
  - assert (Hx : eqb_char x sep = false).
    { apply eqb_char_false. intros ->. apply H. now left. }
    rewrite Hx, IH; [reflexivity | intros Hin; apply H; now right].
Qed.

Lemma split_on_pieces (sep : ascii) (s : text) :
  Forall (fun p => ~ In sep p) (split_on sep s).
Proof.
  induction s as [|c r IH]; simpl.
  - constructor; [exact id | constructor].
  - destruct (eqb_char c sep) eqn:E.
    + constructor; [exact id | exact IH].
    + apply eqb_char_false in E. destruct (split_on sep r) as [|p ps].
      * constructor; [|constructor]. intros [H | []]. now apply E.
      * inversion IH as [|? ? Hp Hps]; subst. constructor; [|exact Hps].
        intros [H | H]; [now apply E | now apply Hp].
Qed.

Lemma contains_char (c : ascii) (s : text) :
  contains [c] s = true <-> In c s.
Proof.
  induction s as [|x s IH]; simpl.
  - split; [discriminate | contradiction].
  - rewrite orb_true_iff, IH, andb_true_r, eqb_char_true.
    split; (intros [H | H]; [left; now symmetry | now right]).
Qed.

Lemma lower_char_at (c : ascii) : lower_char c = "@"%char -> c = "@"%char.
Proof. destruct c as [[] [] [] [] [] [] [] []]; intros H; try discriminate H; reflexivity. Qed.

Lemma lower_keeps_no_at (s : text) : ~ In "@"%char s -> ~ In "@"%char (lower s).
Proof.
  intros H Hin. unfold lower in Hin. apply in_map_iff in Hin.
  destruct Hin as (c & Hc & Hin). apply lower_char_at in Hc. now subst c.
Qed.

End Domains.

(** X1. When the parsed address is [user@host], with no other [@], the
    domain is the host in lower case. *)
Theorem domain_from_header_host (env : Env) (header_value : option text)
    (name user host : text) :
  parseaddr env (or_empty header_value) = (name, user ++ "@"%char :: host) ->
  ~ In "@"%char user -> ~ In "@"%char host ->
  domain_from_header env header_value = lower host.
Proof.
  intros Hp Hu Hh. unfold domain_from_header. rewrite Hp.
  assert (Hc : contains (T "@") (user ++ "@"%char :: host) = true).
  { apply (contains_char "@"). apply in_or_app. right. now left. }
  rewrite Hc. replace (nonempty (user ++ "@"%char :: host)) with true
    by now destruct user.
  cbn [andb]. rewrite (split_on_first "@" user host Hu),
    (split_on_no_sep "@" host Hh). reflexivity.
Qed.

Lemma domain_from_header_host_witness :
  domain_from_header (mailbox [] None) (Some (T "Jane Doe <Jane@Acme.COM>"))
  = T "acme.com".
Proof.
  apply (domain_from_header_host (mailbox [] None)
           (Some (T "Jane Doe <Jane@Acme.COM>")) (T "Jane Doe") (T "Jane")
           (T "Acme.COM")).
  - reflexivity.
  - simpl. intros H. repeat (destruct H as [H | H]; [discriminate|]). exact H.
  - simpl. intros H. repeat (destruct H as [H | H]; [discriminate|]). exact H.
Defined.

(** X2. When the parsed address has no [@] (an empty address included),
    the domain is the empty text. *)
Theorem domain_from_header_no_at (env : Env) (header_value : option text)
    (name addr : text) :
  parseaddr env (or_empty header_value) = (name, addr) ->
  ~ In "@"%char addr ->
  domain_from_header env header_value = [].
Proof.
  intros Hp Ha. unfold domain_from_header. rewrite Hp.
  destruct (contains (T "@") addr) eqn:Hc.
  - exfalso. apply Ha. now apply (contains_char "@").
  - now rewrite andb_false_r.
Qed.

Lemma domain_from_header_no_at_witness :
  domain_from_header (mailbox [] None) (Some (T "no-address-here")) = [].
Proof.
  apply (domain_from_header_no_at (mailbox [] None)
           (Some (T "no-address-here")) [] (T "no-address-here")).
  - reflexivity.
  - simpl. intros H. repeat (destruct H as [H | H]; [discriminate|]). exact H.
Defined.

(** X3. Whatever the header and whatever [parseaddr] makes of it, the
    domain is in lower case and has no [@] in it. *)
Theorem domain_from_header_shape (env : Env) (header_value : option text) :
  lower (domain_from_header env header_value) = domain_from_header env header_value /\
  ~ In "@"%char (domain_from_header env header_value).
Proof.
  split; [apply domain_from_header_lowered|].
  unfold domain_from_header.
  destruct (parseaddr env (or_empty header_value)) as [name addr].
  destruct (nonempty addr && contains (T "@") addr); [|exact id].
  apply lower_keeps_no_at.
  pose proof (split_on_pieces "@" addr) as Hall.
  rewrite Forall_forall in Hall.
  destruct (nth_in_or_default 1 (split_on "@" addr) []) as [Hin | ->];
    [now apply Hall | exact id].
Qed.

(** ** Attachment types *)

Section AttachmentTypes.

Lemma code_inj (a b : ascii) : code a = code b -> a = b.
Proof.
  unfold code. intros H.
  rewrite <- (ascii_nat_embedding a), <- (ascii_nat_embedding b). now rewrite H.
Qed.

Lemma compare_text_eq (a b : text) : compare_text a b = Eq <-> a = b.
Proof.
  revert b. induction a as [|x a IH]; intros [|y b]; simpl;
    try (split; [discriminate | discriminate]); [tauto|].
  destruct (Nat.compare (code x) (code y)) eqn:E.
  - apply Nat.compare_eq in E. apply code_inj in E. subst y.
    rewrite IH. split; [now intros -> | now intros [= ->]].
  - split; [discriminate|]. intros [= -> _]. rewrite Nat.compare_refl in E.
    discriminate.
  - split; [discriminate|]. intros [= -> _]. rewrite Nat.compare_refl in E.
    discriminate.
Qed.

Lemma compare_text_flip (a b : text) :
  compare_text b a = CompOpp (compare_text a b).
Proof.
  revert b. induction a as [|x a IH]; intros [|y b]; simpl; try reflexivity.
  rewrite (Nat.compare_antisym (code x) (code y)).
  destruct (Nat.compare (code x) (code y)); simpl; [apply IH | reflexivity..].
Qed.

Lemma text_lt_irrefl (a : text) : ~ text_lt a a.
Proof.
  unfold text_lt. intros H.
  assert (E : compare_text a a = Eq) by now apply compare_text_eq.
  congruence.
Qed.

Lemma text_lt_trans (a b c : text) : text_lt a b -> text_lt b c -> text_lt a c.
Proof.
  unfold text_lt. revert b c.
  induction a as [|x a IH]; intros [|y b] [|z c]; simpl; try discriminate;
    try reflexivity.
  destruct (Nat.compare (code x) (code y)) eqn:Exy; try discriminate;
    destruct (Nat.compare (code y) (code z)) eqn:Eyz; try discriminate;
    intros H1 H2.
  - apply Nat.compare_eq in Exy, Eyz. rewrite Exy, Eyz, Nat.compare_refl.
    now apply (IH b c).
  - apply Nat.compare_eq in Exy. now rewrite Exy, Eyz.
  - apply Nat.compare_eq in Eyz. now rewrite <- Eyz, Exy.
  - apply Nat.compare_lt_iff in Exy, Eyz.
    assert (E : Nat.compare (code x) (code z) = Lt)
      by (apply Nat.compare_lt_iff; lia).
    now rewrite E.
Qed.

Lemma insert_uniq_In (x y : text) (l : list text) :
  In y (insert_uniq x l) <-> y = x \/ In y l.
Proof.
  induction l as [|z l IH]; simpl.
  - split; [intros [<- | []]; now left | intros [-> | []]; now left].
  - destruct (compare_text x z) eqn:E; simpl.
    + apply compare_text_eq in E. subst z. split; [tauto|].
      intros [-> | H]; [now left | exact H].
    + split; [intros [<- | H]; [now left | now right]
             | intros [-> | H]; [now left | now right]].
    + rewrite IH. split; [intros [<- | [-> | H]] | intros [-> | [<- | H]]];
        tauto.
Qed.

Lemma insert_uniq_sorted (x : text) (l : list text) :
  StronglySorted text_lt l -> StronglySorted text_lt (insert_uniq x l).
Proof.
  induction 1 as [|z l Hs IH Hz]; simpl.
  - constructor; constructor.
  - destruct (compare_text x z) eqn:E.
    + now constructor.
    + constructor; [now constructor|]. constructor; [exact E|].
      eapply Forall_impl; [|exact Hz]. intros a Ha.
      now apply (text_lt_trans x z a).
    + constructor; [exact IH|]. apply Forall_forall. intros a Ha.
      apply insert_uniq_In in Ha. destruct Ha as [-> | Ha].
      * unfold text_lt. rewrite compare_text_flip, E. reflexivity.
      * rewrite Forall_forall in Hz. now apply Hz.
Qed.

Lemma sorted_set_In (y : text) (l : list text) :
  In y (sorted_set l) <-> In y l.
Proof.
  induction l as [|x l IH]; simpl; [tauto|].
  rewrite insert_uniq_In, IH. split; (intros [H | H]; [left; now symmetry | now right]).
Qed.

Lemma sorted_set_sorted (l : list text) : StronglySorted text_lt (sorted_set l).
Proof.
  induction l as [|x l IH]; simpl; [constructor | now apply insert_uniq_sorted].
Qed.

(** Two strictly ascending lists with the same members are the same
    list. *)
Lemma sorted_same_members (l1 : list text) :
  forall l2, StronglySorted text_lt l1 -> StronglySorted text_lt l2 ->
    (forall x, In x l1 <-> In x l2) -> l1 = l2.
Proof.
  induction l1 as [|a l1 IH]; intros [|b l2] H1 H2 Hm.
  - reflexivity.
  - exfalso. apply (Hm b). now left.
  - exfalso. apply (Hm a). now left.
  - inversion H1 as [|? ? Hs1 Ha]; subst. inversion H2 as [|? ? Hs2 Hb]; subst.
    rewrite Forall_forall in Ha, Hb.
    assert (Hab : a = b).
    { destruct (proj1 (Hm a) (or_introl eq_refl)) as [Hba | Hin]; [now symmetry|].
      destruct (proj2 (Hm b) (or_introl eq_refl)) as [Heq | Hin']; [exact Heq|].
      exfalso. apply (text_lt_irrefl a).
      apply (text_lt_trans a b a); [now apply Ha | now apply Hb]. }
    subst b. f_equal. apply IH; [exact Hs1 | exact Hs2 |].
    intros x. split; intros Hx.
    + destruct (proj1 (Hm x) (or_intror Hx)) as [Heq | Hin]; [|exact Hin].
      subst x. exfalso. apply (text_lt_irrefl a). now apply Ha.
    + destruct (proj2 (Hm x) (or_intror Hx)) as [Heq | Hin]; [|exact Hin].
      subst x. exfalso. apply (text_lt_irrefl a). now apply Hb.
Qed.

Lemma sorted_set_members (l1 l2 : list text) :
  (forall x, In x l1 <-> In x l2) -> sorted_set l1 = sorted_set l2.
Proof.
  intros H. apply sorted_same_members; try apply sorted_set_sorted.
  intros x. now rewrite !sorted_set_In.
Qed.

Lemma attachment_types_unfold (names : option (list (option text))) :
  attachment_types_from_list names
  = if nonempty (extensions (or_empty names))
    then join (T ",") (sorted_set (extensions (or_empty names)))
    else [].
Proof. reflexivity. Qed.

Lemma extensions_lowered (names : list (option text)) :
  Forall (fun e => lower e = e) (extensions names).
Proof.
  apply Forall_forall. intros e He. unfold extensions in He.
  apply in_flat_map in He. destruct He as (n & _ & He).
  destruct (splitext (strip (or_empty n))) as [root ext].
  destruct (nonempty ext); [|contradiction].
  destruct He as [<- | []]. apply lower_idem.
Qed.

Lemma lower_join_comma (l : list text) :
  Forall (fun e => lower e = e) l -> lower (join (T ",") l) = join (T ",") l.
Proof.
  induction 1 as [|e l He Hl IH]; [reflexivity|].
  destruct l as [|e2 l]; [exact He|].
  change (join (T ",") (e :: e2 :: l)) with (e ++ T "," ++ join (T ",") (e2 :: l)).
  now rewrite !lower_app, He, IH.
Qed.

End AttachmentTypes.

(** X4. The attachment types depend on the set of names only: neither
    the order of the names nor a repeated name changes the result. *)
Theorem attachment_types_from_list_set (names1 names2 : list (option text)) :
  (forall n, In n names1 <-> In n names2) ->
  attachment_types_from_list (Some names1) = attachment_types_from_list (Some names2).
Proof.
  intros H. rewrite !attachment_types_unfold. cbn [or_empty].
  assert (Hm : forall e, In e (extensions names1) <-> In e (extensions names2)).
  { intros e. unfold extensions. rewrite !in_flat_map.
    split; intros (n & Hn & He); exists n; (split; [now apply H | exact He]). }
  rewrite (sorted_set_members _ _ Hm).
  replace (nonempty (extensions names1)) with (nonempty (extensions names2));
    [reflexivity|].
  destruct (extensions names1) as [|a l1], (extensions names2) as [|b l2];
    try reflexivity.
  - exfalso. apply (Hm b). now left.
  - exfalso. apply (Hm a). now left.
Qed.

Lemma attachment_types_from_list_set_witness :
  attachment_types_from_list
    (Some [Some (T "a.pdf"); Some (T "logo.PNG"); Some (T "a.pdf")])
  = attachment_types_from_list (Some [Some (T "logo.PNG"); Some (T "a.pdf")]).
Proof.
  apply attachment_types_from_list_set.
  intros n. simpl. intuition congruence.
Defined.

(** X5. The attachment types are the comma-joined list of the collected
    extensions in strictly ascending order, so without duplicates, and the
    result is in lower case. *)
Theorem attachment_types_from_list_sorted (names : option (list (option text))) :
  exists l,
    attachment_types_from_list names = join (T ",") l /\
    StronglySorted text_lt l /\
    (forall e, In e l <-> In e (extensions (or_empty names))) /\
    lower (attachment_types_from_list names) = attachment_types_from_list names.
Proof.
  exists (sorted_set (extensions (or_empty names))).
  assert (Hjoin : attachment_types_from_list names
                  = join (T ",") (sorted_set (extensions (or_empty names)))).
  { rewrite attachment_types_unfold.
    now destruct (extensions (or_empty names)). }
  split; [exact Hjoin|]. split; [apply sorted_set_sorted|].
  split; [intros e; apply sorted_set_In|].
  rewrite Hjoin. apply lower_join_comma, Forall_forall. intros e He.
  apply (proj1 (sorted_set_In _ _)) in He.
  pose proof (extensions_lowered (or_empty names)) as Hl.
  rewrite Forall_forall in Hl. now apply Hl.
Qed.

Lemma rfind_absent (c : ascii) (s : text) : ~ In c s -> rfind c s = None.
Proof.
  induction s as [|x s IH]; intros H; [reflexivity|]. simpl.
  rewrite IH by (intros Hin; apply H; now right).
  assert (Hx : eqb_char x c = false).
  { apply eqb_char_false. intros ->. apply H. now left. }
  now rewrite Hx.
Qed.

(** X6. A name that has no dot once trimmed (the empty name and [None]
    included) adds no type. *)
Theorem attachment_types_ignores_dotless (n : option text)
    (names : list (option text)) :
  ~ In "."%char (strip (or_empty n)) ->
  attachment_types_from_list (Some (n :: names))
  = attachment_types_from_list (Some names).
Proof.
  intros Hn. rewrite !attachment_types_unfold. cbn [or_empty].
  assert (He : extensions (n :: names) = extensions names).
  { unfold extensions at 1. cbn [flat_map]. fold (extensions names).
    unfold splitext. rewrite (rfind_absent "." _ Hn).
    destruct (rfind "/" (strip (or_empty n))) as [i|].
    - destruct (Z.ltb_spec (Z.of_nat i) (-1)) as [H | _]; [lia | reflexivity].
    - reflexivity. }
  now rewrite He.
Qed.

Lemma attachment_types_ignores_dotless_witness :
  attachment_types_from_list (Some [Some (T " readme "); Some (T "a.pdf")])
  = attachment_types_from_list (Some [Some (T "a.pdf")]).
Proof.
  apply (attachment_types_ignores_dotless (Some (T " readme ")) [Some (T "a.pdf")]).
  vm_compute. intros H. repeat (destruct H as [H | H]; [discriminate|]). exact H.
Defined.

(** ** The amount guess *)

Section AmountGuess.

Lemma search_amount_none (s : text) :
  existsb is_digit s = false -> search_amount s = None.
Proof.
  induction s as [|c r IH]; simpl; [reflexivity|].
  destruct (is_digit c); [discriminate | exact IH].
Qed.

Lemma search_amount_skip (pre s : text) :
  existsb is_digit pre = false -> search_amount (pre ++ s) = search_amount s.
Proof.
  induction pre as [|c pre IH]; simpl; [reflexivity|].
  destruct (is_digit c); [discriminate | exact IH].
Qed.

Lemma digit_run_app (d rest : text) :
  forallb is_digit d = true ->
  match rest with [] => True | u :: _ => is_digit u = false end ->
  digit_run (d ++ rest) = (d, rest).
Proof.
  intros Hd Hrest. induction d as [|c d IH]; simpl.
  - destruct rest as [|u rest]; [reflexivity | simpl; now rewrite Hrest].
  - simpl in Hd. apply andb_true_iff in Hd. destruct Hd as [Hc Hd].
    now rewrite Hc, (IH Hd).
Qed.

Lemma float_of_amount_string_value (m : text) (q : Q) :
  amount_string m -> decimal_literal m = Some q ->
  float (PyStr m) = Some (round_double q).
Proof.
  intros Hm Hq.
  destruct (float_of_amount_string m Hm) as (q' & Hq' & _ & Hf).
  congruence.
Qed.

End AmountGuess.

(** X7. There is no amount guess exactly when the text has no digit
    [0-9]; and a guess is a number that is not negative or, for a run of
    digits beyond the range of the doubles, plus infinity: never [nan],
    and the [ValueError] branch is never taken. *)
Theorem extract_amount_guess_defined (txt : text) :
  (extract_amount_guess txt = None <-> existsb is_digit txt = false) /\
  (forall f, extract_amount_guess txt = Some f ->
     f = FInf false \/ exists q, f = FFin q /\ (0 <= q)%Q).
Proof.
  split; [|apply extract_amount_guess_number].
  split.
  - intros H. destruct (existsb is_digit txt) eqn:E; [|reflexivity].
    destruct (extract_amount_guess_some txt E) as [q Hq]. congruence.
  - intros H. unfold extract_amount_guess.
    destruct (negb (nonempty txt)); [reflexivity|].
    now rewrite (search_amount_none txt H).
Qed.

(** X8. The guess is the first run of digits of the text, read as a whole
    number and rounded to the nearest double, when the run is not followed
    by a point and two digits; what stands before the run and after it
    does not matter, so in [12.5] the guess is 12.  Below [2^53] the guess
    is the whole number itself. *)
Theorem extract_amount_guess_whole (pre : text) (c : ascii) (d rest : text) :
  existsb is_digit pre = false ->
  forallb is_digit (c :: d) = true ->
  match rest with
  | [] => True
  | p :: a :: b :: _ =>
      is_digit p = false /\ eqb_char p "." && is_digit a && is_digit b = false
  | p :: _ => is_digit p = false
  end ->
  extract_amount_guess (pre ++ (c :: d) ++ rest)
  = Some (round_double (inject_Z (digits_value (c :: d) 0))) /\
  ((digits_value (c :: d) 0 < 2 ^ 53)%Z ->
   extract_amount_guess (pre ++ (c :: d) ++ rest)
   = Some (FFin (inject_Z (digits_value (c :: d) 0)))).
Proof.
  intros Hpre Hd Hrest.
  assert (Hhead : match rest with [] => True | u :: _ => is_digit u = false end).
  { destruct rest as [|p [|a [|b rest]]]; try exact Hrest; now destruct Hrest. }
  assert (Hmatch : amount_match ((c :: d) ++ rest) = c :: d).
  { unfold amount_match. rewrite (digit_run_app _ _ Hd Hhead).
    destruct rest as [|p [|a [|b rest]]]; try reflexivity.
    destruct Hrest as [_ ->]. reflexivity. }
  assert (Hc : is_digit c = true)
    by (simpl in Hd; now apply andb_true_iff in Hd).
  assert (Hsearch : search_amount (pre ++ (c :: d) ++ rest) = Some (c :: d)).
  { rewrite (search_amount_skip _ _ Hpre). cbn [app search_amount].
    rewrite Hc. f_equal. exact Hmatch. }
  assert (Hm : amount_string (c :: d)) by (exists c, d; split; [exact Hd | now left]).
  pose proof (digit_group_run d c 0 0 [] Hd I) as Hg. rewrite app_nil_r in Hg.
  assert (Hguess : extract_amount_guess (pre ++ (c :: d) ++ rest)
                   = Some (round_double (inject_Z (digits_value (c :: d) 0)))).
  { unfold extract_amount_guess. rewrite Hsearch.
    replace (negb (nonempty (pre ++ (c :: d) ++ rest))) with false
      by now destruct pre.
    erewrite (float_of_amount_string_value _ _ Hm);
      [|unfold decimal_literal; rewrite Hg; reflexivity].
    f_equal. apply round_double_proper.
    rewrite Qred_correct. cbn [exponent]. change (pow10 0) with 1%Q.
    change (pow10 (- Z.of_nat 0)) with 1%Q. change (inject_Z 0) with 0%Q. ring. }
  split; [exact Hguess|].
  intros Hsmall. rewrite Hguess. f_equal. apply round_double_integer.
  split; [|exact Hsmall]. apply digits_value_nonneg; [exact Hd | lia].
Qed.

Lemma extract_amount_guess_whole_witness :
  extract_amount_guess (T "pay 12.5 now") = Some (FFin 12) /\
  extract_amount_guess (T "ref 9007199254740993")
  = Some (FFin 9007199254740992).
Proof.
  split.
  - apply (extract_amount_guess_whole (T "pay ") "1" (T "2") (T ".5 now"));
      [reflexivity | reflexivity | split; reflexivity | reflexivity].
  - exact (eq_trans
             (proj1 (extract_amount_guess_whole (T "ref ") "9"
                       (T "007199254740993") [] eq_refl eq_refl I))
             eq_refl).
Defined.

(** X9. When the run of digits is followed by a point and two digits,
    the guess is the double nearest to the number with these two
    decimals. *)
Theorem extract_amount_guess_decimals (pre : text) (c : ascii) (d : text)
    (a b : ascii) (rest : text) :
  existsb is_digit pre = false ->
  forallb is_digit (c :: d) = true ->
  is_digit a = true -> is_digit b = true ->
  extract_amount_guess (pre ++ (c :: d) ++ "."%char :: a :: b :: rest)
  = Some (round_double
            (inject_Z (digits_value (c :: d) 0)
             + inject_Z (digits_value [a; b] 0) * (1 # 100))%Q).
Proof.
  intros Hpre Hd Ha Hb.
  assert (Hmatch : amount_match ((c :: d) ++ "."%char :: a :: b :: rest)
                   = (c :: d) ++ ["."%char; a; b]).
  { unfold amount_match. rewrite (digit_run_app _ _ Hd); [|reflexivity].
    now rewrite Ha, Hb. }
  assert (Hc : is_digit c = true)
    by (simpl in Hd; now apply andb_true_iff in Hd).
  assert (Hsearch : search_amount (pre ++ (c :: d) ++ "."%char :: a :: b :: rest)
                    = Some ((c :: d) ++ ["."%char; a; b])).
  { rewrite (search_amount_skip _ _ Hpre). cbn [app search_amount].
    rewrite Hc. f_equal. exact Hmatch. }
  assert (Hm : amount_string ((c :: d) ++ ["."%char; a; b])).
  { exists c, d. split; [exact Hd|]. right. now exists a, b. }
  assert (Hend : ends_group ("."%char :: [a; b])) by now split.
  pose proof (digit_group_run d c 0 0 _ Hd Hend) as Hg.
  assert (Hab : forallb is_digit (a :: [b]) = true) by (simpl; now rewrite Ha, Hb).
  pose proof (digit_group_run [b] a 0 0 [] Hab I) as Hg2.
  change ((a :: [b]) ++ []) with [a; b] in Hg2.
  unfold extract_amount_guess. rewrite Hsearch.
  replace (negb (nonempty (pre ++ (c :: d) ++ "."%char :: a :: b :: rest)))
    with false by now destruct pre.
  erewrite (float_of_amount_string_value _ _ Hm);
    [|unfold decimal_literal; rewrite Hg;
      change (eqb_char "." ".") with true; cbv iota; rewrite Hg2; reflexivity].
  f_equal. apply round_double_proper.
  rewrite Qred_correct. cbn [exponent]. change (pow10 0) with 1%Q.
  change (pow10 (- Z.of_nat (0 + length [a; b]))) with (1 # 100)%Q. ring.
Qed.

Lemma extract_amount_guess_decimals_witness :
  extract_amount_guess (T "Total: $250.00 due") = Some (FFin 250) /\
  extract_amount_guess (T "fee 0.10")
  = Some (FFin (3602879701896397 # 36028797018963968)).
Proof.
  split.
  - exact (eq_trans
             (extract_amount_guess_decimals (T "Total: $") "2" (T "50") "0" "0"
                (T " due") eq_refl eq_refl eq_refl eq_refl)
             eq_refl).
  - exact (eq_trans
             (extract_amount_guess_decimals (T "fee ") "0" [] "1" "0" []
                eq_refl eq_refl eq_refl eq_refl)
             eq_refl).
Defined.

(** X10. The bins of an amount guess: LOW exactly from 0 to below 100,
    MED from 100 to below 1000, HIGH from 1000 on. *)
Theorem amt_token_of_amount_guess (txt : text) (q : Q) :
  extract_amount_guess txt = Some (FFin q) ->
  (_amt_token (amount_arg (Some (FFin q))) = T "AMOUNT_BIN:LOW"
     <-> (0 <= q < 100)%Q) /\
  (_amt_token (amount_arg (Some (FFin q))) = T "AMOUNT_BIN:MED"
     <-> (100 <= q < 1000)%Q) /\
  (_amt_token (amount_arg (Some (FFin q))) = T "AMOUNT_BIN:HIGH"
     <-> (1000 <= q)%Q).
Proof. apply amt_token_of_guess. Qed.

Lemma amt_token_of_amount_guess_witness :
  _amt_token (amount_arg (Some (FFin 250))) = T "AMOUNT_BIN:MED"
  <-> (100 <= 250 < 1000)%Q.
Proof.
  apply (amt_token_of_amount_guess (T "Please pay $250.00 to acme.com") 250).
  reflexivity.
Defined.

(** X11. The quantizer has no lower bound: every number below zero, and
    minus infinity, is binned LOW; plus infinity is binned HIGH. *)
Theorem amt_token_below_zero (q : Q) :
  (q < 0)%Q ->
  _amt_token (PyFloat (FFin q)) = T "AMOUNT_BIN:LOW" /\
  amt_token (PyFloat (FFin q)) = T "AMOUNT_BIN:LOW" /\
  _amt_token (PyFloat (FInf true)) = T "AMOUNT_BIN:LOW" /\
  _amt_token (PyFloat (FInf false)) = T "AMOUNT_BIN:HIGH".
Proof.
  intros Hq.
  assert (H : _amt_token (PyFloat (FFin q)) = T "AMOUNT_BIN:LOW").
  { apply (amt_token_number q). eapply Qlt_trans; [exact Hq | reflexivity]. }
  repeat split; exact H.
Qed.

Lemma amt_token_below_zero_witness :
  _amt_token (PyFloat (FFin (-5))) = T "AMOUNT_BIN:LOW".
Proof. apply (amt_token_below_zero (-5)). reflexivity. Defined.

(** ** Trimming *)

Section Trimming.

Lemma lstrip_idem (s : text) : lstrip (lstrip s) = lstrip s.
Proof. apply lstrip_solid, lstrip_starts_solid. Qed.

Lemma rstrip_prefix (s : text) : exists ws, s = rstrip s ++ ws.
Proof.
  unfold rstrip.
  assert (H : forall u, exists ws, u = ws ++ lstrip u).
  { induction u as [|c u [ws IH]]; [now exists []|]. simpl.
    destruct (is_space c); [|now exists []].
    exists (c :: ws). simpl. now rewrite <- IH. }
  destruct (H (rev s)) as [ws Hws]. exists (rev ws).
  rewrite <- rev_app_distr, <- Hws. now rewrite rev_involutive.
Qed.

Lemma rstrip_idem (s : text) : rstrip (rstrip s) = rstrip s.
Proof. unfold rstrip. now rewrite rev_involutive, lstrip_idem. Qed.

Lemma lstrip_rstrip_solid (v : text) :
  starts_solid v -> lstrip (rstrip v) = rstrip v.
Proof.
  intros Hv. destruct (rstrip_prefix v) as [ws Hws].
  destruct (rstrip v) as [|c r]; [reflexivity|].
  rewrite Hws in Hv. simpl in Hv. simpl. now rewrite Hv.
Qed.

Lemma strip_idem (s : text) : strip (strip s) = strip s.
Proof.
  unfold strip.
  rewrite (lstrip_rstrip_solid _ (lstrip_starts_solid s)). apply rstrip_idem.
Qed.

Lemma strip_starts_solid (s : text) : starts_solid (strip s).
Proof.
  unfold strip. destruct (rstrip_prefix (lstrip s)) as [ws Hws].
  pose proof (lstrip_starts_solid s) as H. rewrite Hws in H.
  now destruct (rstrip (lstrip s)).
Qed.

Lemma endswith_app (p s : text) : endswith p (s ++ p) = true.
Proof.
  unfold endswith. rewrite rev_app_distr. apply startswith_app. eauto.
Qed.

End Trimming.

(** ** The gate, the attachments, the body *)

(** X12. The gate does not look at letter case: lowering subject and
    body beforehand changes neither the decision nor the reason. *)
Theorem looks_like_invoice_case_blind (subject body : text)
    (attachments : list Attachment) :
  looks_like_invoice (lower subject) (lower body) attachments
  = looks_like_invoice subject body attachments.
Proof.
  unfold looks_like_invoice.
  now rewrite !lower_app, !lower_idem.
Qed.

(** X13. [list_attachments] returns one entry for every part of the walk
    whose disposition has [attachment] in it, in any letter case; no entry
    has an empty name; and an entry whose name ends in [.pdf], in any
    letter case, is flagged as PDF whatever its content type. *)
Theorem list_attachments_entries (env : Env) (msg : Message) :
  length (list_attachments env msg) = length (filter is_attachment (walk msg)) /\
  Forall (fun a =>
            fname a <> [] /\
            (forall stem suffix, fname a = stem ++ suffix ->
               lower suffix = T ".pdf" -> is_pdf a = true))
         (list_attachments env msg).
Proof.
  unfold list_attachments. split; [apply length_map|].
  apply Forall_forall. intros a Ha. apply in_map_iff in Ha.
  destruct Ha as (part & <- & _). cbn [fname is_pdf]. split.
  - now destruct (decode_mime_header env (filename part)).
  - intros stem suffix Hname Hsuffix. rewrite Hname, lower_app, Hsuffix.
    rewrite endswith_app. apply orb_true_r.
Qed.

(** X14. The body of a multipart message is trimmed: it neither begins
    nor ends with white space, and trimming it again changes nothing.  (A
    single-part message is returned as it is.) *)
Theorem extract_text_body_trimmed (env : Env) (msg : Message) :
  is_multipart msg = true ->
  strip (extract_text_body env msg) = extract_text_body env msg /\
  starts_solid (extract_text_body env msg) /\
  starts_solid (rev (extract_text_body env msg)).
Proof.
  intros Hm. unfold extract_text_body. rewrite Hm.
  split; [apply strip_idem|]. split; [apply strip_starts_solid|].
  unfold strip, rstrip. rewrite rev_involutive. apply lstrip_starts_solid.
Qed.

Lemma extract_text_body_trimmed_witness :
  strip (extract_text_body (mailbox [] None)
           (container (T "multipart/mixed") None None [plain (T "  hello  ")]))
  = extract_text_body (mailbox [] None)
      (container (T "multipart/mixed") None None [plain (T "  hello  ")]).
Proof.
  apply (extract_text_body_trimmed (mailbox [] None)
           (container (T "multipart/mixed") None None [plain (T "  hello  ")])).
  reflexivity.
Defined.

(** ** The combined text *)

Section CombinedText.

Lemma collapse_single_spaced (s : text) :
  forall b, single_spaced b (collapse_from b s) = true.
Proof.
  induction s as [|c r IH]; intros b; [reflexivity|]. simpl.
  destruct (is_space c) eqn:E.
  - destruct b; [apply IH|]. simpl. apply IH.
  - simpl. rewrite E. apply IH.
Qed.

Lemma single_spaced_fixed (s : text) :
  forall b, single_spaced b s = true -> collapse_from b s = s.
Proof.
  induction s as [|c r IH]; intros b H; [reflexivity|]. simpl in *.
  destruct (is_space c).
  - apply andb_true_iff in H. destruct H as [H Hr].
    apply andb_true_iff in H. destruct H as [Hc Hb].
    apply eqb_char_true in Hc. subst c.
    destruct b; [discriminate|]. now rewrite (IH true Hr).
  - now rewrite (IH false H).
Qed.

Lemma single_spaced_lstrip (s : text) :
  forall b, single_spaced b s = true -> single_spaced false (lstrip s) = true.
Proof.
  induction s as [|c r IH]; intros b H; [reflexivity|]. simpl in *.
  destruct (is_space c) eqn:E.
  - apply andb_true_iff in H. destruct H as [_ Hr]. now apply (IH true).
  - simpl. now rewrite E.
Qed.

Lemma single_spaced_prefix (a x : text) :
  forall b, single_spaced b (a ++ x) = true -> single_spaced b a = true.
Proof.
  induction a as [|c a IH]; intros b H; [reflexivity|]. simpl in *.
  destruct (is_space c).
  - apply andb_true_iff in H. destruct H as [H Hr]. rewrite H.
    now apply IH.
  - now apply IH.
Qed.

Lemma single_spaced_spaces (s : text) :
  forall b, single_spaced b s = true ->
    forall c, In c s -> is_space c = true -> c = " "%char.
Proof.
  induction s as [|x s IH]; intros b H c Hin Hc; [contradiction|].
  simpl in H. destruct Hin as [-> | Hin].
  - rewrite Hc in H. apply andb_true_iff in H. destruct H as [H _].
    apply andb_true_iff in H. destruct H as [H _]. now apply eqb_char_true in H.
  - destruct (is_space x).
    + apply andb_true_iff in H. destruct H as [_ H]. now apply (IH true).
    + now apply (IH false).
Qed.

Lemma combine_single_spaced
    (subject body from_domain reply_domain attachment_types : option text)
    (amount : pyval) :
  single_spaced false
    (_combine subject body from_domain reply_domain attachment_types amount) = true.
Proof.
  unfold _combine, strip, collapse_ws.
  set (txt := join _ _).
  pose proof (single_spaced_lstrip _ _ (collapse_single_spaced txt false)) as H.
  destruct (rstrip_prefix (lstrip (collapse_from false txt))) as [ws Hws].
  rewrite Hws in H. now apply single_spaced_prefix in H.
Qed.

Lemma amt_token_collapsed (v : pyval) :
  collapse_from true (_amt_token v) = _amt_token v.
Proof.
  unfold _amt_token.
  destruct (float v) as [x|];
    [destruct (flt x 100); [|destruct (flt x 1000)]|]; reflexivity.
Qed.

Lemma attachment_types_lowered (names : option (list (option text))) :
  lower (attachment_types_from_list names) = attachment_types_from_list names.
Proof.
  rewrite attachment_types_unfold.
  destruct (nonempty (extensions (or_empty names))); [|reflexivity].
  apply lower_join_comma, Forall_forall. intros e He.
  apply (proj1 (sorted_set_In _ _)) in He.
  pose proof (extensions_lowered (or_empty names)) as Hl.
  rewrite Forall_forall in Hl. now apply Hl.
Qed.

Lemma candidate_fields (env : Env) (msg : Message) (c : Candidate) :
  candidate_of env msg = Some c ->
  (exists h, c_from_domain c = domain_from_header env h) /\
  (exists h, c_reply_domain c = domain_from_header env h) /\
  (exists names, c_attachment_types c = attachment_types_from_list names) /\
  c_amount_value c = extract_amount_guess (c_subject c ++ T "
" ++ c_body c).
Proof.
  unfold candidate_of.
  destruct (looks_like_invoice _ _ _) as [is_inv reason].
  destruct is_inv; [|discriminate]. intros H. injection H as <-.
  cbn [c_from_domain c_reply_domain c_attachment_types c_amount_value
       c_subject c_body].
  repeat split; eauto.
Qed.

End CombinedText.

(** X15. The combined text is in normal form: collapsing its white
    space or trimming it again changes nothing, and its only white-space
    character is the single space, so it is one line. *)
Theorem combine_normal_form
    (subject body from_domain reply_domain attachment_types : option text)
    (amount : pyval) :
  let out := _combine subject body from_domain reply_domain attachment_types amount in
  collapse_ws out = out /\
  strip out = out /\
  (forall c, In c out -> is_space c = true -> c = " "%char).
Proof.
  intros out.
  pose proof (combine_single_spaced subject body from_domain reply_domain
                attachment_types amount) as H. fold out in H.
  split; [now apply single_spaced_fixed|].
  split; [apply strip_idem|].
  now apply (single_spaced_spaces out false).
Qed.

(** X16. The combined text always ends with the amount token. *)
Theorem combine_ends_with_token
    (subject body from_domain reply_domain attachment_types : option text)
    (amount : pyval) :
  exists before,
    _combine subject body from_domain reply_domain attachment_types amount
    = before ++ _amt_token amount.
Proof.
  rewrite combine_segments. unfold tag_segment, collapse_ws, nl.
  change (T "
") with ["010"%char].
  set (x := T "FROM:" ++ lower (or_empty from_domain) ++ ["010"%char] ++
            T "REPLY:" ++ lower (or_empty reply_domain) ++ ["010"%char] ++
            T "ATTACH:" ++ lower (or_empty attachment_types)).
  replace (T "FROM:" ++ lower (or_empty from_domain) ++ ["010"%char] ++
           T "REPLY:" ++ lower (or_empty reply_domain) ++ ["010"%char] ++
           T "ATTACH:" ++ lower (or_empty attachment_types) ++ ["010"%char] ++
           _amt_token amount)
    with (x ++ "010"%char :: _amt_token amount)
    by (unfold x; now rewrite <- !app_assoc).
  rewrite (collapse_split _ _ _ nl_space), amt_token_collapsed.
  exists (subject_segment subject ++ body_segment body
          ++ collapse_from false (x ++ ["010"%char])).
  now rewrite <- !app_assoc.
Qed.

(** X17. The runtime codec does not look at the letter case of the two
    domains and of the attachment types. *)
Theorem combine_case_blind_fields
    (subject body from_domain reply_domain attachment_types : option text)
    (amount : pyval) :
  _combine subject body (option_map lower from_domain)
    (option_map lower reply_domain) (option_map lower attachment_types) amount
  = _combine subject body from_domain reply_domain attachment_types amount.
Proof.
  unfold _combine.
  assert (H : forall o, lower (or_empty (option_map lower o)) = lower (or_empty o)).
  { intros [s|]; [apply lower_idem | reflexivity]. }
  now rewrite !H.
Qed.

(** X18. On the values the processing loop passes, the runtime codec and
    the training combiner agree: for every accepted message, the text that
    is scored is the text the training combiner makes of the same six
    values. *)
Theorem candidate_text_matches_training (env : Env) (msg : Message) (c : Candidate) :
  candidate_of env msg = Some c ->
  candidate_text c = combine (row_of_candidate c).
Proof.
  intros H. destruct (candidate_fields env msg c H) as ([h1 H1] & [h2 H2] & [n H3] & _).
  unfold candidate_text.
  apply (combine_agree_on_lowered (row_of_candidate c)); cbn [row_of_candidate
    r_from_domain r_reply_domain r_attachment_types r_amount or_empty].
  - rewrite H1. apply domain_from_header_lowered.
  - rewrite H2. apply domain_from_header_lowered.
  - rewrite H3. apply attachment_types_lowered.
  - reflexivity.
Qed.

Lemma candidate_text_matches_training_witness :
  let env := mailbox [scenario_A (T "application/pdf") []] None in
  exists c,
    candidate_of env (scenario_A (T "application/pdf") []) = Some c /\
    candidate_text c = combine (row_of_candidate c).
Proof.
  intros env. eexists. split; [vm_compute; reflexivity|].
  apply (candidate_text_matches_training env (scenario_A (T "application/pdf") [])).
  reflexivity.
Defined.

(** X19. The token of the amount guess is UNK exactly when the text has
    no digit. *)
Theorem amt_token_unknown_iff_no_digit (txt : text) :
  _amt_token (amount_arg (extract_amount_guess txt)) = T "AMOUNT_BIN:UNK"
  <-> existsb is_digit txt = false.
Proof.
  destruct (existsb is_digit txt) eqn:E.
  - destruct (extract_amount_guess_some txt E) as [f Hf]. rewrite Hf.
    split; [|discriminate].
    destruct (extract_amount_guess_number _ _ Hf) as [-> | (q & -> & _)];
      [discriminate|].
    cbn [amount_arg]. unfold _amt_token, float.
    destruct (flt (FFin q) 100); [discriminate|].
    destruct (flt (FFin q) 1000); discriminate.
  - split; [reflexivity|]. intros _. unfold extract_amount_guess.
    destruct (negb (nonempty txt)); [reflexivity|].
    now rewrite (search_amount_none txt E).
Qed.

(** ** The score and the tokens *)

Section Scoring.

Lemma sorted_not_positive_tail (a : text * Q) (l : list (text * Q)) :
  StronglySorted weight_ge (a :: l) -> positive a = false ->
  filter positive l = [].
Proof.
  intros Hs Ha. inversion Hs as [|? ? _ Hall]; subst.
  apply Qlt_bool_false in Ha.
  induction l as [|x l IH]; [reflexivity|].
  inversion Hall as [|? ? Hx Hl]; subst. simpl.
  assert (Hpx : positive x = false).
  { apply Qlt_bool_false. eapply Qle_trans; [exact Hx | exact Ha]. }
  rewrite Hpx. apply IH; [|exact Hl].
  constructor; [|exact Hl]. inversion Hs as [|? ? Hs' _]; subst.
  now inversion Hs'.
Qed.

Lemma firstn_filter_sorted (l : list (text * Q)) :
  StronglySorted weight_ge l ->
  forall n, firstn n (filter positive (firstn n l)) = firstn n (filter positive l).
Proof.
  induction 1 as [|a l Hs IH Ha]; intros [|n]; try reflexivity.
  cbn [firstn filter]. destruct (positive a) eqn:E.
  - cbn [firstn]. now rewrite IH.
  - assert (Htail : filter positive l = [])
      by (apply (sorted_not_positive_tail a); [now constructor | exact E]).
    rewrite Htail.
    assert (Hpre : filter positive (firstn n l) = []).
    { assert (Hs' : StronglySorted weight_ge (a :: firstn n l)).
      { constructor; [now apply sorted_firstn|].
        apply Forall_forall. intros x Hx. rewrite Forall_forall in Ha.
        apply Ha. now apply firstn_In in Hx. }
      now apply (sorted_not_positive_tail a). }
    now rewrite Hpre.
Qed.

Lemma floor_unique (q : Q) (n : Z) :
  (inject_Z n <= q)%Q -> (q < inject_Z n + 1)%Q -> Qfloor q = n.
Proof.
  intros Hlo Hhi.
  pose proof (Qfloor_le q) as Flo. pose proof (Qlt_floor q) as Fhi.
  rewrite inject_Z_plus in Fhi. change (inject_Z 1) with 1%Q in Fhi.
  assert (H1 : (inject_Z (Qfloor q) < inject_Z (n + 1))%Q).
  { rewrite inject_Z_plus. change (inject_Z 1) with 1%Q. lra. }
  assert (H2 : (inject_Z n < inject_Z (Qfloor q + 1))%Q).
  { rewrite inject_Z_plus. change (inject_Z 1) with 1%Q. lra. }
  rewrite <- Zlt_Qlt in H1, H2. lia.
Qed.

Lemma round_half_even_tie (q : Q) (n : Z) :
  (q == inject_Z n + (1 # 2))%Q ->
  round_half_even q = if Z.even n then n else (n + 1)%Z.
Proof.
  intros Hq.
  assert (Hf : Qfloor q = n) by (apply floor_unique; lra).
  unfold round_half_even. rewrite Hf.
  assert (E1 : Qlt_bool (q - inject_Z n) (1 # 2) = false)
    by (apply Qlt_bool_false; lra).
  assert (E2 : Qlt_bool (1 # 2) (q - inject_Z n) = false)
    by (apply Qlt_bool_false; lra).
  now rewrite E1, E2.
Qed.

Lemma predict_email_risk_score (clf : Classifier) (vec : Vectorizer)
    (subject body from_domain reply_domain attachment_types : option text)
    (amount : pyval) (X : SparseRow) (p : pyfloat) (ra : RiskAssessment) :
  transform vec
    (_combine subject body from_domain reply_domain attachment_types amount)
    = Some X ->
  predict_proba clf X = Some p ->
  predict_email_risk (Some (clf, vec))
    subject body from_domain reply_domain attachment_types amount = Some ra ->
  exists x, times p 100 = FFin x /\ risk_score ra = round_half_even x.
Proof.
  intros HX Hp. unfold predict_email_risk. rewrite HX, Hp.
  destruct (times p 100) as [| |x]; try discriminate.
  cbn [py_round]. intros H. injection H as <-. now exists x.
Qed.

End Scoring.

(** X20. The tokens returned are the five heaviest among the present
    tokens of weight above zero, or all of these when they are fewer:
    cutting to five before dropping the other weights, as the code does,
    loses none of them. *)
Theorem explain_five_heaviest_positive (clf : Classifier) (vec : Vectorizer)
    (X : SparseRow) :
  explain clf vec X
  = option_map
      (fun toks => map fst (firstn 5 (filter positive (sort_desc toks))))
      (weighted_tokens clf vec X).
Proof.
  unfold explain, weighted_tokens.
  destruct (get_feature_names_out vec) as [feats|]; [|reflexivity].
  destruct (coef_ clf) as [[|row0 rest]|]; try reflexivity.
  destruct (traverse _ (nonzero_cols X)) as [toks|]; [|reflexivity].
  cbn [option_map]. f_equal.
  rewrite <- (firstn_filter_sorted _ (sort_desc_sorted toks) 5).
  first [apply firstn_map | symmetry; apply firstn_map].
Qed.

(** X21. The score does not decrease when the probability grows. *)
Theorem risk_score_monotone (clf : Classifier) (vec : Vectorizer)
    (s1 b1 f1 r1 a1 s2 b2 f2 r2 a2 : option text) (m1 m2 : pyval)
    (X1 X2 : SparseRow) (p1 p2 : Q) (ra1 ra2 : RiskAssessment) :
  transform vec (_combine s1 b1 f1 r1 a1 m1) = Some X1 ->
  transform vec (_combine s2 b2 f2 r2 a2 m2) = Some X2 ->
  predict_proba clf X1 = Some (FFin p1) ->
  predict_proba clf X2 = Some (FFin p2) ->
  (p1 <= p2)%Q ->
  predict_email_risk (Some (clf, vec)) s1 b1 f1 r1 a1 m1 = Some ra1 ->
  predict_email_risk (Some (clf, vec)) s2 b2 f2 r2 a2 m2 = Some ra2 ->
  (risk_score ra1 <= risk_score ra2)%Z.
Proof.
  intros HX1 HX2 Hp1 Hp2 Hle H1 H2.
  destruct (predict_email_risk_score _ _ _ _ _ _ _ _ _ _ _ HX1 Hp1 H1)
    as (x1 & E1 & ->).
  destruct (predict_email_risk_score _ _ _ _ _ _ _ _ _ _ _ HX2 Hp2 H2)
    as (x2 & E2 & ->).
  apply round_half_even_mono.
  apply round_double_finite in E1, E2. rewrite E1, E2.
  apply round_value_mono.
  change (inject_Z 100) with 100%Q. lra.
Qed.

(** X22. When the product of the probability and 100, as the double the
    multiplication gives, lies exactly between two integers, the score is
    the even one of them, not always the upper one. *)
Theorem risk_score_tie_to_even (clf : Classifier) (vec : Vectorizer)
    (subject body from_domain reply_domain attachment_types : option text)
    (amount : pyval) (X : SparseRow) (p : pyfloat) (x : Q) (n : Z)
    (ra : RiskAssessment) :
  transform vec
    (_combine subject body from_domain reply_domain attachment_types amount)
    = Some X ->
  predict_proba clf X = Some p ->
  times p 100 = FFin x ->
  (x == inject_Z n + (1 # 2))%Q ->
  predict_email_risk (Some (clf, vec))
    subject body from_domain reply_domain attachment_types amount = Some ra ->
  risk_score ra = if Z.even n then n else (n + 1)%Z.
Proof.
  intros HX Hp Hx Htie H.
  destruct (predict_email_risk_score _ _ _ _ _ _ _ _ _ _ _ HX Hp H)
    as (x' & E & ->).
  rewrite Hx in E. injection E as <-.
  now apply round_half_even_tie.
Qed.

(** X23. The scoring call of the loop raises in exactly four cases: the
    model pair cannot be loaded, the vectorizer raises on the combined
    text, the classifier raises on the vector, or the probability times
    100 is [nan] or infinite, which [round] refuses; a failing explanation
    is none of them. *)
Theorem score_raises_exactly (env : Env) (c : Candidate) :
  score env c = None <->
  load env = None \/
  exists clf vec, load env = Some (clf, vec) /\
    (transform vec (candidate_text c) = None \/
     exists X, transform vec (candidate_text c) = Some X /\
       (predict_proba clf X = None \/
        exists p, predict_proba clf X = Some p /\
                  (times p 100 = FNan \/ exists s, times p 100 = FInf s))).
Proof.
  rewrite score_raises.
  assert (Hr : forall y, py_round y = None <-> y = FNan \/ exists s, y = FInf s).
  { intros [|s|q]; cbn [py_round]; split; intros H;
      try discriminate; eauto.
    destruct H as [H | [s H]]; discriminate. }
  split; (intros [H | (clf & vec & Hl & Hc)]; [now left | right]);
    exists clf, vec; (split; [exact Hl|]);
    (destruct Hc as [Ht | (X & HX & Hc)]; [now left | right]);
    exists X; (split; [exact HX|]);
    (destruct Hc as [Hp | (p & Hp & Hz)]; [now left | right]);
    exists p; (split; [exact Hp|]); now apply Hr.
Qed.

Lemma risk_score_monotone_witness :
  exists ra1 ra2,
    predict_email_risk (Some two_level_model)
      (Some (T "hello")) None None None None PyNone = Some ra1 /\
    predict_email_risk (Some two_level_model)
      (Some (T "urgent invoice")) None None None None PyNone = Some ra2 /\
    (risk_score ra1 <= risk_score ra2)%Z.
Proof.
  eexists. eexists.
  split; [vm_compute; reflexivity|]. split; [vm_compute; reflexivity|].
  apply (risk_score_monotone (fst two_level_model) (snd two_level_model)
           (Some (T "hello")) None None None None
           (Some (T "urgent invoice")) None None None None PyNone PyNone
           [] [(0%nat, 1%Q)] (1 # 8)%Q (7 # 8)%Q);
    try (vm_compute; reflexivity).
  discriminate.
Defined.

Lemma risk_score_tie_to_even_witness :
  exists ra,
    predict_email_risk (Some half_percent_model)
      (Some (T "hello")) None None None None PyNone = Some ra /\
    risk_score ra = 0%Z /\
    ((1 # 2) < (5764607523034235 # 1152921504606846976) * 100)%Q.
Proof.
  eexists. split; [vm_compute; reflexivity|]. split; [|reflexivity].
  apply (risk_score_tie_to_even (fst half_percent_model) (snd half_percent_model)
           (Some (T "hello")) None None None None PyNone []
           (FFin (5764607523034235 # 1152921504606846976)) (1 # 2) 0);
    vm_compute; reflexivity.
Defined.

(** ** The run *)

Section Run.

Variable env : Env.



(** The clock enters a row through its first cell only. *)
Lemma rows_of_with_clock (clock : nat -> text) (ids : list text) :
  forall i, map (skipn 1) (rows_of (with_clock env clock) i ids)
            = map (skipn 1) (rows_of env i ids).
Proof.
  induction ids as [|x ids IH]; intros i; [reflexivity|].
  cbn [rows_of]. rewrite !map_app, IH. f_equal.
  change (imap_fetch (with_clock env clock) x) with (imap_fetch env x).
  destruct (imap_fetch env x) as [msg| |]; try reflexivity.
  change (candidate_of (with_clock env clock) msg) with (candidate_of env msg).
  destruct (candidate_of env msg) as [c|]; reflexivity.
Qed.


End Run.




(** X27. Nothing is deduplicated: when no exception leaves either run, a
    second run over the same mailbox at another time appends the rows of
    the first once more, behind them, the cell of the time of saving
    apart. *)
Theorem process_all_twice (env : Env) (clock : nat -> text) (limit : Z)
    (st : State) (msg_ids : list text) :
  imap_search env = SearchOk msg_ids ->
  run_returns env 1 (rev (batch limit msg_ids)) = true ->
  run_returns (with_clock env clock) 1 (rev (batch limit msg_ids)) = true ->
  exists rows again,
    ledger (process_all env limit st) = extend (ledger st) rows /\
    ledger (process_all (with_clock env clock) limit (process_all env limit st))
    = extend (ledger st) (rows ++ again) /\
    map (skipn 1) again = map (skipn 1) rows.
Proof.
  intros Hs H1 H2.
  exists (rows_of env 1 (rev (batch limit msg_ids))),
         (rows_of (with_clock env clock) 1 (rev (batch limit msg_ids))).
  assert (E1 : ledger (process_all env limit st)
               = extend (ledger st) (rows_of env 1 (rev (batch limit msg_ids)))).
  { unfold process_all. rewrite Hs.
    apply (process_loop_ledger env _ 1 (start st) H1). }
  split; [exact E1|]. split; [|apply rows_of_with_clock].
  unfold process_all at 1.
  change (imap_search (with_clock env clock)) with (imap_search env).
  rewrite Hs.
  rewrite (process_loop_ledger (with_clock env clock) _ 1 _ H2).
  cbn [start ledger]. rewrite E1. apply extend_extend.
Qed.

Lemma process_all_twice_witness :
  let env := mailbox three_invoices None in
  let later := fun _ : nat => T "2024-01-02 00:00:00" in
  exists rows again,
    ledger (process_all env 2 empty_state) = extend None rows /\
    ledger (process_all (with_clock env later) 2 (process_all env 2 empty_state))
    = extend None (rows ++ again) /\
    map (skipn 1) again = map (skipn 1) rows.
Proof.
  intros env later.
  apply (process_all_twice env later 2 empty_state (mailbox_ids 3));
    vm_compute; reflexivity.
Defined.

(** ** The training table *)

(** X28. Filling the missing text columns with the empty text changes
    nothing in the combined text of a row that has an amount. *)
Theorem combine_prepare_row (row : Row) (amount : pyval) :
  r_amount row = Some amount ->
  combine (prepare_row row) = combine row.
Proof.
  intros Ha. unfold combine, prepare_row. cbn [r_subject r_body r_from_domain
    r_reply_domain r_attachment_types r_amount]. rewrite Ha. cbn [fill_amount].
  assert (H : forall o, or_empty (fill_text o) = or_empty o)
    by (intros [s|]; reflexivity).
  now rewrite !H.
Qed.

Lemma combine_prepare_row_witness :
  combine (prepare_row (Build_Row None None None None None (Some (PyFloat (FFin 5)))))
  = combine (Build_Row None None None None None (Some (PyFloat (FFin 5)))).
Proof.
  apply (combine_prepare_row
           (Build_Row None None None None None (Some (PyFloat (FFin 5))))
           (PyFloat (FFin 5))).
  reflexivity.
Defined.

(** ** The liveness probe *)

Section Keepalive.

Lemma div_succ (n : nat) :
  S n / 50 = n / 50 + (if S n mod 50 =? 0 then 1 else 0).
Proof.
  pose proof (Nat.div_mod_eq n 50) as Hn.
  pose proof (Nat.mod_upper_bound n 50 ltac:(lia)) as Hb.
  destruct (Nat.eq_dec (n mod 50) 49) as [E | E].
  - assert (Hq : n / 50 + 1 = S n / 50)
      by (apply (Nat.div_unique (S n) 50 (n / 50 + 1) 0); lia).
    assert (Hr : 0 = S n mod 50)
      by (apply (Nat.mod_unique (S n) 50 (n / 50 + 1) 0); lia).
    rewrite <- Hq, <- Hr. reflexivity.
  - assert (Hq : n / 50 = S n / 50)
      by (apply (Nat.div_unique (S n) 50 (n / 50) (n mod 50 + 1)); lia).
    assert (Hr : n mod 50 + 1 = S n mod 50)
      by (apply (Nat.mod_unique (S n) 50 (n / 50) (n mod 50 + 1)); lia).
    rewrite <- Hq, <- Hr.
    replace (n mod 50 + 1 =? 0) with false by (symmetry; apply Nat.eqb_neq; lia).
    lia.
Qed.

Lemma probe_due (noop : NoopOutcome) (i : nat) :
  noop <> NoopRaises ->
  match maybe_keepalive noop (Z.of_nat i) 50 with
  | Some sent => sent
  | None => false
  end = (i mod 50 =? 0).
Proof.
  intros Hn. unfold maybe_keepalive. cbn [Z.eqb].
  assert (Hm : (Z.of_nat i mod 50 =? 0)%Z = (i mod 50 =? 0)).
  { change 50%Z with (Z.of_nat 50). rewrite <- Nat2Z.inj_mod.
    destruct (Nat.eqb_spec (i mod 50) 0) as [-> | Hne]; [reflexivity|].
    apply Z.eqb_neq. lia. }
  rewrite Hm. destruct (i mod 50 =? 0); [|reflexivity].
  now destruct noop.
Qed.

Lemma probe_turns_filter (noop : NoopOutcome) (n : nat) :
  noop <> NoopRaises ->
  probe_turns noop n = filter (fun i => i mod 50 =? 0) (seq 1 n).
Proof.
  intros Hn. unfold probe_turns. apply filter_ext. intros i.
  now apply probe_due.
Qed.

Lemma probe_turns_length (noop : NoopOutcome) (n : nat) :
  noop <> NoopRaises -> length (probe_turns noop n) = n / 50.
Proof.
  intros Hn. rewrite (probe_turns_filter noop n Hn).
  induction n as [|n IH]; [reflexivity|].
  rewrite seq_S, filter_app, length_app, IH, div_succ. cbn [filter Nat.add].
  now destruct (S n mod 50 =? 0).
Qed.

End Keepalive.

(** X29. An aborted probe is swallowed: the call returns as if the probe
    had returned.  With the default of every 50 turns, a run of [n] turns
    sends the probe on the turns that are multiples of 50 and on no other,
    [n / 50] times in all; a probe that raises anything but the abort is
    not caught. *)
Theorem maybe_keepalive_probes (n : nat) :
  (forall i every,
     maybe_keepalive NoopAborts i every = maybe_keepalive NoopReturns i every) /\
  length (probe_turns NoopAborts n) = n / 50 /\
  (forall i, In i (probe_turns NoopAborts n) <-> (1 <= i <= n /\ i mod 50 = 0)) /\
  (forall i every, (every <> 0)%Z -> (i mod every = 0)%Z ->
     maybe_keepalive NoopRaises i every = None).
Proof.
  assert (Hn : NoopAborts <> NoopRaises) by discriminate.
  split; [reflexivity|]. split; [now apply probe_turns_length|]. split.
  - intros i. rewrite (probe_turns_filter _ n Hn), filter_In, in_seq, Nat.eqb_eq.
    split; intros [H1 H2]; (split; [lia | exact H2]).
  - intros i every He Hi. unfold maybe_keepalive.
    replace (every =? 0)%Z with false by (symmetry; now apply Z.eqb_neq).
    now rewrite Hi.
Qed.
